(** * rems, [examples/1d_signal.py]: the generator of the 1D example signal

    The script evaluates one list comprehension over [range(4092)], builds
    the dict [{'ex': signal, '_version': 0}] and writes its BSON encoding
    to [1d_signal.bson] next to the script.

    Python floats are IEEE 754 binary64 values: they are modelled by Rocq's
    primitive [float], whose [+], [-], [*] and [/] are the processor's.
    [math.exp], [math.sin] and the float power operator come from the C
    library, and [bson.BSON.encode] from the bson package: they are not
    part of this repository and enter the model as interfaces ([Libm],
    [Bson]). The file system is a state that the script's three I/O calls
    ([open], [write], and the [close] of the [with] statement) transform.
    Where a sample is compared with the exponential and the sine of the
    real numbers, the value of a float is a real number of the Standard
    Library ([B2R]). *)

From Stdlib Require Import Reals Lra.
From Stdlib Require Import ZArith List Floats Uint63 Lia Bool Ascii String DecimalString.
From coqutil Require Import Byte Word.LittleEndianList.
From stdpp Require Import base gmap strings.
Import ListNotations.

Set Warnings "-inexact-float,-register-all".

(** ** The pieces of the Python runtime the script uses *)

Module Py.

(** [range(n)]: the integers [0, 1, ..., n-1], in order. *)
Definition range (n : nat) : list Z := map Z.of_nat (seq 0 n).

(** The conversion of an [int] operand of a mixed [float]/[int] operation
    ([2048.0 - t], [t/100.]). It is exact below [2^53] and correctly
    rounded below [2^63]; the script converts [0..4091]. *)
Definition float_of_int (t : Z) : float :=
  if (t <? 0)%Z then (- of_uint63 (Uint63.of_Z (- t)))%float
  else of_uint63 (Uint63.of_Z t).

(** *** [os.path] on a POSIX system ([posixpath]) *)

Definition sep : ascii := "/"%char.

Definition is_sep (c : ascii) : bool := Ascii.eqb c sep.

(** [(p[:i], p[i:])] for [i = p.rfind('/') + 1]. *)
Fixpoint rsplit_sep (p : string) : string * string :=
  match p with
  | EmptyString => (EmptyString, EmptyString)
  | String c r =>
    let (h, t) := rsplit_sep r in
    match h with
    | String _ _ => (String c h, t)
    | EmptyString =>
      if is_sep c then (String c EmptyString, r) else (EmptyString, String c r)
    end
  end.

(** [s == '/' * len(s)] *)
Fixpoint all_sep (s : string) : bool :=
  match s with
  | EmptyString => true
  | String c r => is_sep c && all_sep r
  end.

(** [s.rstrip('/')] *)
Fixpoint rstrip_sep (s : string) : string :=
  match s with
  | EmptyString => EmptyString
  | String c r =>
    match rstrip_sep r with
    | EmptyString => if is_sep c then EmptyString else String c EmptyString
    | r' => String c r'
    end
  end.

Definition nonempty (s : string) : bool :=
  match s with EmptyString => false | String _ _ => true end.

Definition startswith_sep (s : string) : bool :=
  match s with EmptyString => false | String c _ => is_sep c end.

Fixpoint endswith_sep (s : string) : bool :=
  match s with
  | EmptyString => false
  | String c EmptyString => is_sep c
  | String _ r => endswith_sep r
  end.

(** ['/' in s] *)
Fixpoint has_sep (s : string) : bool :=
  match s with
  | EmptyString => false
  | String c r => is_sep c || has_sep r
  end.

(** [os.path.dirname(p)]: the head up to the last slash, without its
    trailing slashes unless it consists of slashes only. *)
Definition dirname (p : string) : string :=
  let head := fst (rsplit_sep p) in
  if nonempty head && negb (all_sep head) then rstrip_sep head else head.

(** [os.path.basename(p)]: what follows the last slash. *)
Definition basename (p : string) : string := snd (rsplit_sep p).

(** [os.path.join(a, b)] *)
Definition join (a b : string) : string :=
  if startswith_sep b then b
  else if negb (nonempty a) || endswith_sep a then (a ++ b)%string
  else (a ++ String sep b)%string.

End Py.

(** ** The C library, as far as the script calls it *)

(** [math.exp], [math.sin] and [x ** y] on floats. The script calls them on
    finite arguments of small magnitude, where they return a float. *)
Class Libm := {
  math_exp : float -> float;
  math_sin : float -> float;
  float_pow : float -> float -> float;
}.

(** ** The signal *)

(** [signal = [math.exp(-0.5 * (((2048.0 - t)/512.0)**2.0)) *
               math.sin(t/100.) for t in range(4092)]] *)
Definition signal `{Libm} : list float :=
  map (fun t : Z =>
         (math_exp (-0.5 * float_pow ((2048.0 - Py.float_of_int t) / 512.0) 2.0)
          * math_sin (Py.float_of_int t / 100.0))%float)
      (Py.range 4092).

(** ** The document *)

(** The Python values a BSON document is built from here: floats, ints,
    lists, and dicts with string keys. A dict keeps its items in insertion
    order, which is the order the encoder emits them in. *)
Inductive value : Type :=
| VFloat (x : float)
| VInt (n : Z)
| VList (items : list value)
| VDict (fields : list (string * value)).

Definition document : Type := list (string * value).

(** [d[k]], or [None] when [d] has no key [k]. *)
Fixpoint dict_get (k : string) (d : document) : option value :=
  match d with
  | [] => None
  | (k', v) :: d' => if String.eqb k k' then Some v else dict_get k d'
  end.

Definition dict_keys (d : document) : list string := map fst d.

(** [{'ex': signal, '_version': 0}] *)
Definition signal_document `{Libm} : document :=
  [("ex"%string, VList (map VFloat signal)); ("_version"%string, VInt 0)].

(** ** The bson package *)

Definition bytes : Type := list Byte.byte.

(** [bson.BSON.encode(document)] *)
Class Bson := { bson_encode : document -> bytes }.

(** ** Files *)

(** What an I/O call raises. *)
Inductive exn : Type :=
| OSError (errno : Z)
| ValueError.

(** How the system answers the script's I/O on a path: it refuses to open
    the path for writing, or it accepts the first [written] bytes of a
    write and then fails. *)
Inductive fault : Type :=
| DenyOpen (e : exn)
| FailWrite (written : nat) (e : exn).

(** The I/O calls, as they reach the system. *)
Inductive event : Type :=
| EvOpen (path : string)
| EvWrite (path : string) (data : bytes)
| EvClose (path : string).

Definition event_path (ev : event) : string :=
  match ev with EvOpen p | EvWrite p _ | EvClose p => p end.

Definition is_open_event (ev : event) : bool :=
  match ev with EvOpen _ => true | _ => false end.

Record World : Type := mkWorld {
  files : gmap string bytes;      (* the content of every file, by path *)
  handles : gmap nat string;      (* the open file objects and their paths *)
  faults : string -> option fault;(* the system's answer, by path *)
  trace : list event;             (* the calls made so far, oldest first *)
}.

Inductive result (A : Type) : Type :=
| Ok (a : A)
| Raise (e : exn).
Arguments Ok {A} a.
Arguments Raise {A} e.

(** A computation that may read and change the world, and return or raise. *)
Definition IO (A : Type) : Type := World -> result A * World.

Definition io_ret {A : Type} (a : A) : IO A := fun w => (Ok a, w).

Definition io_bind {A B : Type} (m : IO A) (k : A -> IO B) : IO B :=
  fun w =>
    match m w with
    | (Ok a, w') => k a w'
    | (Raise e, w') => (Raise e, w')
    end.

Definition log (ev : event) (w : World) : World :=
  mkWorld (files w) (handles w) (faults w) (trace w ++ [ev]).

(** [open(path, 'bw')]: the file is created or truncated, unless the system
    refuses. *)
Definition io_open (path : string) : IO nat :=
  fun w =>
    let w := log (EvOpen path) w in
    match faults w path with
    | Some (DenyOpen e) => (Raise e, w)
    | _ =>
      let f := fresh (dom (handles w)) in
      (Ok f, mkWorld (<[path := []]> (files w)) (<[f := path]> (handles w))
                     (faults w) (trace w))
    end.

Definition append_to (path : string) (data : bytes) (fs : gmap string bytes)
  : gmap string bytes :=
  <[path := default [] (fs !! path) ++ data]> fs.

(** [f.write(data)] *)
Definition io_write (f : nat) (data : bytes) : IO nat :=
  fun w =>
    match handles w !! f with
    | None => (Raise ValueError, w)
    | Some path =>
      let w := log (EvWrite path data) w in
      match faults w path with
      | Some (FailWrite n e) =>
        (Raise e, mkWorld (append_to path (take n data) (files w)) (handles w)
                          (faults w) (trace w))
      | _ =>
        (Ok (length data), mkWorld (append_to path data (files w)) (handles w)
                                   (faults w) (trace w))
      end
    end.

(** [f.close()] *)
Definition io_close (f : nat) : IO unit :=
  fun w =>
    match handles w !! f with
    | None => (Ok tt, w)
    | Some path =>
      let w := log (EvClose path) w in
      (Ok tt, mkWorld (files w) (delete f (handles w)) (faults w) (trace w))
    end.

(** [with open(path, 'bw') as f: body]: the file is closed when the body
    returns and when it raises; what the body raised is raised again. *)
Definition with_open {A : Type} (path : string) (body : nat -> IO A) : IO A :=
  fun w =>
    match io_open path w with
    | (Raise e, w1) => (Raise e, w1)
    | (Ok f, w1) =>
      let (r, w2) := body f w1 in
      let (_, w3) := io_close f w2 in
      (r, w3)
    end.

(** ** The script *)

(** [os.path.join(os.path.dirname(__file__), '1d_signal.bson')] *)
Definition output_path (file : string) : string :=
  Py.join (Py.dirname file) "1d_signal.bson".

(** The script, run as the file [file]:
[[
with open(os.path.join(os.path.dirname(__file__), '1d_signal.bson'), 'bw') as signal_f:
    signal_f.write(bson.BSON.encode({'ex': signal, '_version': 0}))
]] *)
Definition main `{Libm} `{Bson} (file : string) : IO unit :=
  with_open (output_path file)
    (fun signal_f =>
       io_bind (io_write signal_f (bson_encode signal_document))
               (fun _ => io_ret tt)).

(** What a run returns or raises, and the world it leaves. *)
Definition outcome `{Libm} `{Bson} (file : string) (w : World) : result unit :=
  fst (main file w).

Definition after `{Libm} `{Bson} (file : string) (w : World) : World :=
  snd (main file w).

(** The system lets the path be opened for writing and written. *)
Definition path_writable (w : World) (path : string) : Prop :=
  faults w path = None.

(** The number of [open] calls in a trace. *)
Definition count_opens (tr : list event) : nat :=
  length (List.filter is_open_event tr).

(** Worlds to run the script in: an empty one, one where the output file
    exists with other content, one where the directory is read-only, and
    one where the disk is full after three bytes. *)
Definition empty_world : World := mkWorld ∅ ∅ (fun _ => None) [].

Definition stale_world : World :=
  mkWorld {[ "examples/1d_signal.bson"%string := [Byte.x2a; Byte.x2a] ]} ∅
          (fun _ => None) [].

Definition readonly_world : World :=
  mkWorld ∅ ∅ (fun _ => Some (DenyOpen (OSError 13))) [].

Definition full_world : World :=
  mkWorld ∅ ∅ (fun _ => Some (FailWrite 3 (OSError 28))) [].

(** ** Names for the two factors of a sample *)

(** The Gaussian envelope, centred at index 2048 with scale 512. *)
Definition envelope `{Libm} (t : Z) : float :=
  math_exp (-0.5 * float_pow ((2048.0 - Py.float_of_int t) / 512.0) 2.0)%float.

(** The sinusoid, one hundredth of a radian per index. *)
Definition carrier `{Libm} (t : Z) : float :=
  math_sin (Py.float_of_int t / 100.0)%float.

(** The arguments the script passes to the C library at index [t]: the
    power's base lies in [[-4, 4]] and the sine's argument is finite. *)
Definition args_in_range (t : Z) : bool :=
  let x := ((2048.0 - Py.float_of_int t) / 512.0)%float in
  let a := (Py.float_of_int t / 100.0)%float in
  (-4 <=? x)%float && (x <=? 4)%float && is_finite a.

(** ** A small C library that runs

    Series evaluated in binary64, accurate to a few digits on the script's
    arguments: [exp] by eight squarings of a degree-four series,
    [sin] by five triplings of a degree-seven series, and the square for the
    power of exponent two. The results are kept in the functions' ranges. It
    is an instance of [Libm] to compute with, not the platform's. *)

Definition square (x : float) : float := (x * x)%float.

Definition crude_exp_series (x : float) : float :=
  let z := (x / 256)%float in
  let p := (1 + z * (1 + z * (0.5 + z * (1 / 6 + z / 24))))%float in
  square (square (square (square (square (square (square (square p))))))).

Definition crude_exp (x : float) : float :=
  let y := crude_exp_series x in
  if (x <=? 0)%float then
    if (0 <=? y)%float && (y <=? 1)%float then y
    else if (y <? 0)%float then 0%float else 1%float
  else y.

Definition triple_angle (s : float) : float := (s * (3 - 4 * (s * s)))%float.

Definition crude_sin_series (x : float) : float :=
  let a := (x / 243)%float in
  let a2 := (a * a)%float in
  let s := (a * (1 - a2 / 6 * (1 - a2 / 20 * (1 - a2 / 42))))%float in
  triple_angle (triple_angle (triple_angle (triple_angle (triple_angle s)))).

Definition crude_sin (x : float) : float :=
  let y := crude_sin_series x in
  if (abs y <=? 1)%float then y
  else if (y <? 0)%float then (-1)%float else 1%float.

Definition crude_pow (x y : float) : float :=
  if (y =? 2)%float then (x * x)%float else nan.

Definition crude_libm : Libm :=
  {| math_exp := crude_exp; math_sin := crude_sin; float_pow := crude_pow |}.

(** ** Binary64 rounding, for the bounds on products *)

(** The number one, as the specification of binary64 writes it. *)
Definition binary64_one : spec_float := S754_finite false 4503599627370496 (-52).

(** What [k] right shifts of the mantissa [M] leave: a mantissa [m] with
    [m * 2^k <= M], strictly below when the round bit is set. *)
Definition shifted (M : Z) (k : Z) (mrs : shr_record) : Prop :=
  (0 <= shr_m mrs)%Z /\ (shr_m mrs * 2 ^ k <= M)%Z /\
  (shr_r mrs = true -> (shr_m mrs * 2 ^ k < M)%Z).
(** ** BSON

    [bson.BSON.encode] writes the layout that bsonspec.org publishes. This
    module gives that layout for the four kinds of value above, as an
    encoder and as a decoder that reads it back: they run, and the
    round trip is proved below. What is proved about the written bytes is
    proved for every encoder that writes this layout and every decoder that
    reads it. [encodable] says which documents BSON can hold. *)

Module Wire.


Definition fits_int32 (n : Z) : bool := ((- 2 ^ 31 <=? n) && (n <? 2 ^ 31))%Z.

(** The key of the [i]-th item of an array: [i] in decimal. *)
Definition index_key (i : nat) : string := NilEmpty.string_of_uint (Nat.to_uint i).

Definition key_size (k : string) : Z := Z.of_nat (String.length k) + 1.

(** The number of bytes of a value's encoding, without tag and key. *)
Fixpoint value_size (v : value) : Z :=
  match v with
  | VFloat _ => 8
  | VInt n => if fits_int32 n then 4 else 8
  | VList items =>
    5 + (fix items_size (i : nat) (l : list value) : Z :=
           match l with
           | [] => 0
           | x :: l' => 1 + key_size (index_key i) + value_size x + items_size (S i) l'
           end) O items
  | VDict fields =>
    5 + (fix fields_size (d : list (string * value)) : Z :=
           match d with
           | [] => 0
           | (k, x) :: d' => 1 + key_size k + value_size x + fields_size d'
           end) fields
  end%Z.

Fixpoint items_size (i : nat) (l : list value) : Z :=
  match l with
  | [] => 0
  | x :: l' => 1 + key_size (index_key i) + value_size x + items_size (S i) l'
  end%Z.

Fixpoint fields_size (d : list (string * value)) : Z :=
  match d with
  | [] => 0
  | (k, x) :: d' => 1 + key_size k + value_size x + fields_size d'
  end%Z.




(** *** The encoder *)

Definition sign_bit (s : bool) : Z := if s then 2 ^ 63 else 0.

(** The 64 bits of a binary64 number. *)
Definition bits_of_spec (x : spec_float) : Z :=
  match x with
  | S754_zero s => sign_bit s
  | S754_infinity s => sign_bit s + 2047 * 2 ^ 52
  | S754_nan => 2047 * 2 ^ 52 + 2 ^ 51
  | S754_finite s m e =>
    if (Zpos m <? 2 ^ 52)%Z then sign_bit s + Zpos m
    else sign_bit s + (e + 1075) * 2 ^ 52 + (Zpos m - 2 ^ 52)
  end%Z.

Definition spec_of_bits (b : Z) : spec_float :=
  let s := (2 ^ 63 <=? b)%Z in
  let e := ((b / 2 ^ 52) mod 2 ^ 11)%Z in
  let m := (b mod 2 ^ 52)%Z in
  if (e =? 0)%Z then
    match m with
    | Zpos p => S754_finite s p (-1074)
    | _ => S754_zero s
    end
  else if (e =? 2047)%Z then
    if (m =? 0)%Z then S754_infinity s else S754_nan
  else
    match (m + 2 ^ 52)%Z with
    | Zpos p => S754_finite s p (e - 1075)
    | _ => S754_nan
    end.

Definition enc_double (x : float) : bytes := le_split 8 (bits_of_spec (Prim2SF x)).

Definition enc_cstring (k : string) : bytes := list_byte_of_string k ++ [Byte.x00].

(** A document: its length in four bytes, its elements, a zero byte. *)
Definition frame (body : bytes) : bytes :=
  le_split 4 (Z.of_nat (length body) + 5) ++ body ++ [Byte.x00].

Definition element (k : string) (tv : Byte.byte * bytes) : bytes :=
  fst tv :: enc_cstring k ++ snd tv.

(** The type tag and the bytes of a value. *)
Fixpoint enc_value (v : value) : Byte.byte * bytes :=
  match v with
  | VFloat x => (Byte.x01, enc_double x)
  | VInt n => if fits_int32 n then (Byte.x10, le_split 4 n) else (Byte.x12, le_split 8 n)
  | VList items =>
    (Byte.x04,
     frame ((fix enc_items (i : nat) (l : list value) : bytes :=
               match l with
               | [] => []
               | x :: l' => element (index_key i) (enc_value x) ++ enc_items (S i) l'
               end) O items))
  | VDict fields =>
    (Byte.x03,
     frame ((fix enc_fields (d : list (string * value)) : bytes :=
               match d with
               | [] => []
               | (k, x) :: d' => element k (enc_value x) ++ enc_fields d'
               end) fields))
  end.

Fixpoint enc_items (i : nat) (l : list value) : bytes :=
  match l with
  | [] => []
  | x :: l' => element (index_key i) (enc_value x) ++ enc_items (S i) l'
  end.

Fixpoint enc_fields (d : list (string * value)) : bytes :=
  match d with
  | [] => []
  | (k, x) :: d' => element k (enc_value x) ++ enc_fields d'
  end.

Definition encode (d : document) : bytes := frame (enc_fields d).


(** *** The decoder *)

(** The bytes up to the first zero byte, and what follows it. *)
Fixpoint dec_cstring (bs : bytes) : option (string * bytes) :=
  match bs with
  | [] => None
  | b :: bs' =>
    if Byte.eqb b Byte.x00 then Some (EmptyString, bs')
    else
      match dec_cstring bs' with
      | Some (k, rest) => Some (String (ascii_of_byte b) k, rest)
      | None => None
      end
  end.

(** [n] bytes as an unsigned number, and what follows them. *)
Definition dec_unsigned (n : nat) (bs : bytes) : option (Z * bytes) :=
  if (n <=? length bs)%nat then Some (le_combine (firstn n bs), skipn n bs) else None.

Definition to_signed (n : nat) (z : Z) : Z :=
  if (z <? 2 ^ (8 * Z.of_nat n - 1))%Z then z else (z - 2 ^ (8 * Z.of_nat n))%Z.

Definition dec_signed (n : nat) (bs : bytes) : option (Z * bytes) :=
  match dec_unsigned n bs with
  | Some (z, rest) => Some (to_signed n z, rest)
  | None => None
  end.

Definition dec_double (bs : bytes) : option (float * bytes) :=
  match dec_unsigned 8 bs with
  | Some (z, rest) => Some (SF2Prim (spec_of_bits z), rest)
  | None => None
  end.

(** A document, given the decoder [elements] of its elements: the length
    read first must be the number of bytes the document takes. *)
Definition dec_frame (elements : bytes -> option (list (string * value) * bytes))
  (bs : bytes) : option (list (string * value) * bytes) :=
  match dec_signed 4 bs with
  | Some (n, body) =>
    match elements body with
    | Some (d, rest) =>
      if (n =? 4 + Z.of_nat (length body) - Z.of_nat (length rest))%Z
      then Some (d, rest) else None
    | None => None
    end
  | None => None
  end.

(** The elements of a document up to its closing zero byte. *)
Fixpoint dec_elements (fuel : nat) (bs : bytes)
  : option (list (string * value) * bytes) :=
  match fuel with
  | O => None
  | S fuel' =>
    match bs with
    | [] => None
    | tag :: bs1 =>
      if Byte.eqb tag Byte.x00 then Some ([], bs1)
      else
        match dec_cstring bs1 with
        | None => None
        | Some (k, bs2) =>
          let payload :=
            match tag with
            | Byte.x01 =>
              match dec_double bs2 with
              | Some (x, r) => Some (VFloat x, r)
              | None => None
              end
            | Byte.x10 =>
              match dec_signed 4 bs2 with
              | Some (n, r) => Some (VInt n, r)
              | None => None
              end
            | Byte.x12 =>
              match dec_signed 8 bs2 with
              | Some (n, r) => Some (VInt n, r)
              | None => None
              end
            | Byte.x03 =>
              match dec_frame (dec_elements fuel') bs2 with
              | Some (d, r) => Some (VDict d, r)
              | None => None
              end
            | Byte.x04 =>
              match dec_frame (dec_elements fuel') bs2 with
              | Some (d, r) => Some (VList (map snd d), r)
              | None => None
              end
            | _ => None
            end in
          match payload with
          | None => None
          | Some (v, bs3) =>
            match dec_elements fuel' bs3 with
            | Some (tl, bs4) => Some ((k, v) :: tl, bs4)
            | None => None
            end
          end
        end
    end
  end.

(** [bson.BSON(data).decode()] *)
Definition decode (bs : bytes) : option document :=
  match dec_frame (dec_elements (length bs)) bs with
  | Some (d, []) => Some d
  | _ => None
  end.






End Wire.

(** The encoder above, as an instance of the interface. *)
Definition wire_bson : Bson := {| bson_encode := Wire.encode |}.





(** ** Exact values and the script's arguments *)

(** The value of a binary64 number times [2^k], when that is an integer. *)
Definition scaled_value (k : Z) (x : spec_float) : option Z :=
  match x with
  | S754_zero _ => Some 0%Z
  | S754_finite s m e =>
    if (0 <=? e + k)%Z then Some (cond_Zopp s (Zpos m * 2 ^ (e + k)))%Z
    else if (Zpos m mod 2 ^ (- (e + k)) =? 0)%Z
         then Some (cond_Zopp s (Zpos m / 2 ^ (- (e + k))))%Z
         else None
  | _ => None
  end.

(** [(2048.0 - t)/512.0], the number the script squares at index [t]. *)
Definition envelope_arg (t : Z) : float :=
  ((2048.0 - Py.float_of_int t) / 512.0)%float.

(** [t/100.], the number the script takes the sine of at index [t]. *)
Definition carrier_arg (t : Z) : float := (Py.float_of_int t / 100.0)%float.

(** At index [t] the conversion of [t] is [t], the envelope's argument times
    512 is [2048 - t], and the sine's argument lies in [[0, 40.91]]. *)
Definition args_exact (t : Z) : bool :=
  match scaled_value 0 (Prim2SF (Py.float_of_int t)),
        scaled_value 9 (Prim2SF (envelope_arg t)) with
  | Some z, Some b =>
    (z =? t)%Z && (b =? 2048 - t)%Z
    && (0 <=? carrier_arg t)%float && (carrier_arg t <=? 40.91)%float
  | _, _ => false
  end.

(** The envelope's arguments at [2048 + k] and [2048 - k] are opposite. *)
Definition mirrored (k : Z) : bool :=
  Leibniz.eqb (envelope_arg (2048 + k)) (- envelope_arg (2048 - k))%float.


(** ** Real values and accuracy *)

(** The real number that a binary64 value stands for (0 for what is not a
    number). *)
Definition SF2R (x : spec_float) : R :=
  match x with
  | S754_finite s m e => IZR (cond_Zopp s (Zpos m)) * powerRZ 2 e
  | _ => 0
  end.

Definition B2R (x : float) : R := SF2R (Prim2SF x).

Definition is_number (x : spec_float) : bool :=
  match x with
  | S754_zero _ | S754_finite _ _ _ => true
  | _ => false
  end.

(** What [k] right shifts of the mantissa [M] leave: the quotient, with a
    round bit and a sticky bit that tell where the remainder lies. *)
Definition split_at (M : Z) (k : Z) (mrs : shr_record) : Prop :=
  (0 <= shr_m mrs /\
   exists rem : Z,
     M = shr_m mrs * 2 ^ k + rem /\ 0 <= rem < 2 ^ k /\
     (shr_r mrs = true <-> 2 ^ k <= 2 * rem) /\
     (shr_s mrs = false -> 2 * rem = if shr_r mrs then 2 ^ k else 0))%Z.

(** [x] is within [2^-48] of [t/100]. *)
Definition near_hundredth (t : Z) (x : spec_float) : bool :=
  match x with
  | S754_zero _ => (t =? 0)%Z
  | S754_finite false m e =>
    (e <=? 0)%Z
    && (Z.abs (100 * Zpos m - t * 2 ^ (- e)) * 2 ^ 48 <=? 100 * 2 ^ (- e))%Z
  | _ => false
  end.

(** The quotient [t/100.] that the script computes is that close. *)
Definition angle_close (t : Z) : bool := near_hundredth t (Prim2SF (carrier_arg t)).

(** The C library computes [x ** 2.0], [exp x] and [sin x] within [eps],
    on the numbers that the script gives them. *)
Definition accurate (libm : Libm) (eps : R) : Prop :=
  (forall x : float,
      is_finite x = true -> (Rabs (B2R x) <= 4)%R ->
      is_finite (float_pow x 2) = true /\
      (0 <= B2R (float_pow x 2))%R /\
      (Rabs (B2R (float_pow x 2) - B2R x ^ 2) <= eps)%R) /\
  (forall x : float,
      is_finite x = true -> (-9 <= B2R x <= 0)%R ->
      is_finite (math_exp x) = true /\
      (Rabs (B2R (math_exp x) - exp (B2R x)) <= eps)%R) /\
  (forall x : float,
      is_finite x = true -> (0 <= B2R x <= 41)%R ->
      is_finite (math_sin x) = true /\
      (Rabs (B2R (math_sin x) - sin (B2R x)) <= eps)%R).

(** ** A C library that rounds the exact values

    The real number [r], between -1 and 1, as a float: its first 62 binary
    places, converted and scaled. It is within [2^-51] of [r]. *)
Definition round_R (r : R) : float :=
  (Py.float_of_int (Int_part (r * powerRZ 2 62)) * 0x1p-62)%float.

Definition exact_libm : Libm :=
  {| math_exp := fun x => round_R (exp (B2R x));
     math_sin := fun x => round_R (sin (B2R x));
     float_pow := crude_pow |}.

(** * Facts *)

(** ** Binary64 multiplication

    The product of two floats is the rounding of the exact product
    ([SFmul], by [FloatAxioms.mul_spec]). The lemmas follow the rounding
    through its two shifts to bound the result. *)

Section Binary64.
Local Open Scope Z_scope.

Lemma digits2_pos_bounds (p : positive) :
  2 ^ (Zpos (digits2_pos p) - 1) <= Zpos p < 2 ^ Zpos (digits2_pos p).
Proof.
  induction p as [p IH | p IH |]; cbn [digits2_pos].
  - rewrite Pos2Z.inj_succ.
    replace (Z.succ (Zpos (digits2_pos p)) - 1) with (Z.succ (Zpos (digits2_pos p) - 1)) by lia.
    rewrite !Z.pow_succ_r by lia. lia.
  - rewrite Pos2Z.inj_succ.
    replace (Z.succ (Zpos (digits2_pos p)) - 1) with (Z.succ (Zpos (digits2_pos p) - 1)) by lia.
    rewrite !Z.pow_succ_r by lia. lia.
  - cbn. lia.
Qed.

Lemma iter_pos_invariant {A : Type} (f : A -> A) (P : Z -> A -> Prop) :
  (forall k x, 0 <= k -> P k x -> P (k + 1) (f x)) ->
  forall p k x, 0 <= k -> P k x -> P (k + Zpos p) (SpecFloat.iter_pos f p x).
Proof.
  intros Hstep. induction p as [p IH | p IH |]; intros k x Hk HP; cbn [SpecFloat.iter_pos].
  - replace (k + Zpos p~1) with (k + 1 + Zpos p + Zpos p) by lia.
    apply IH; [lia |]. apply IH; [lia |]. now apply Hstep.
  - replace (k + Zpos p~0) with (k + Zpos p + Zpos p) by lia.
    apply IH; [lia |]. now apply IH.
  - now apply Hstep.
Qed.

Lemma shr_1_shifted (M k : Z) (mrs : shr_record) :
  0 <= k -> shifted M k mrs -> shifted M (k + 1) (shr_1 mrs).
Proof.
  intros Hk (Hm & Hle & Hlt). unfold shifted.
  rewrite Z.pow_add_r, Z.pow_1_r by lia.
  assert (Hp : 0 < 2 ^ k) by (apply Z.pow_pos_nonneg; lia).
  destruct mrs as [m r s]; cbn [shr_m shr_r] in *.
  destruct m as [| [p | p |] | p]; cbn [shr_1 shr_m shr_r];
    repeat split; intros; try discriminate; try lia;
    rewrite ?Pos2Z.inj_xI, ?Pos2Z.inj_xO in *; nia.
Qed.

Lemma shifted_0 (m : Z) : 0 <= m -> shifted m 0 (Build_shr_record m false false).
Proof. intros Hm. unfold shifted; cbn [shr_m shr_r]. repeat split; intros; try discriminate; lia. Qed.

Lemma shr_shifted (m e n : Z) :
  0 <= m ->
  let '(mrs, e') := shr (Build_shr_record m false false) e n in
  e' = e + Z.max n 0 /\ shifted m (e' - e) mrs.
Proof.
  intros Hm. destruct n as [| p | p]; cbn [shr].
  - split; [lia |]. replace (e - e) with 0 by lia. now apply shifted_0.
  - split; [lia |]. replace (e + Zpos p - e) with (0 + Zpos p) by lia.
    apply iter_pos_invariant with (P := shifted m).
    + intros. now apply shr_1_shifted.
    + lia.
    + now apply shifted_0.
  - split; [lia |]. replace (e - e) with 0 by lia. now apply shifted_0.
Qed.

Lemma Zdigits2_le (M k : Z) : 0 <= M -> 0 <= k -> M <= 2 ^ k -> Zdigits2 M <= k + 1.
Proof.
  intros HM Hk Hle. destruct M as [| p | p]; cbn [Zdigits2]; try lia.
  pose proof (digits2_pos_bounds p) as [Hlo _].
  assert (Hpow : 2 ^ (Zpos (digits2_pos p) - 1) <= 2 ^ k) by lia.
  apply Z.pow_le_mono_r_iff in Hpow; lia.
Qed.

Lemma fexp_le (d e : Z) : d + e <= 1 -> fexp prec emax (d + e) <= -52.
Proof. unfold fexp, SpecFloat.emin, prec, emax. lia. Qed.

Lemma pow_cancel (a j k : Z) : 0 <= j -> a * 2 ^ j <= 2 ^ (k + j) -> 0 <= k -> a <= 2 ^ k.
Proof.
  intros Hj H Hk. rewrite Z.pow_add_r in H by lia.
  assert (0 < 2 ^ j) by (apply Z.pow_pos_nonneg; lia). nia.
Qed.

Lemma pow_cancel_lt (a b j k : Z) :
  0 <= j -> a * 2 ^ j < b -> b <= 2 ^ (k + j) -> 0 <= k -> a + 1 <= 2 ^ k.
Proof.
  intros Hj H Hb Hk. rewrite Z.pow_add_r in Hb by lia.
  assert (0 < 2 ^ j) by (apply Z.pow_pos_nonneg; lia). nia.
Qed.

Lemma shr_fexp_le_one (M E : Z) :
  0 <= M -> M <= 2 ^ (- E) -> E <= -52 ->
  let '(mrs, e) := shr_fexp prec emax M E loc_Exact in
  e <= -52 /\ E <= e /\ shifted M (e - E) mrs /\ shr_m mrs <= 2 ^ (- e).
Proof.
  intros HM Hval HE. unfold shr_fexp. cbn [shr_record_of_loc].
  set (n := fexp prec emax (Zdigits2 M + E) - E).
  pose proof (shr_shifted M E n HM) as H.
  destruct (shr (Build_shr_record M false false) E n) as [mrs e].
  destruct H as (He & Hs).
  assert (He52 : e <= -52).
  { pose proof (Zdigits2_le M (- E) HM ltac:(lia) Hval).
    pose proof (fexp_le (Zdigits2 M) E ltac:(lia)). lia. }
  repeat split; try lia; try apply Hs.
  destruct Hs as (_ & Hle & _).
  apply pow_cancel with (j := e - E); try lia.
  replace (- e + (e - E)) with (- E) by lia. lia.
Qed.

Lemma binary_round_aux_le_one (s : bool) (M E : Z) :
  0 <= M -> M <= 2 ^ (- E) -> E <= -52 ->
  SFleb (SFabs (binary_round_aux prec emax s M E loc_Exact)) binary64_one = true.
Proof.
  intros HM Hval HE.
  unfold binary_round_aux.
  pose proof (shr_fexp_le_one M E HM Hval HE) as H1.
  destruct (shr_fexp prec emax M E loc_Exact) as [mrs1 e1].
  destruct H1 as (He1 & HEe1 & (Hm1 & Hle1 & Hlt1) & Hb1).
  set (mr := round_nearest_even (shr_m mrs1) (loc_of_shr_record mrs1)).
  assert (Hmr : 0 <= mr <= 2 ^ (- e1)).
  { assert (Hup : shr_r mrs1 = true -> shr_m mrs1 + 1 <= 2 ^ (- e1)).
    { intros Hr. apply pow_cancel_lt with (b := M) (j := e1 - E); try lia.
      - now apply Hlt1.
      - replace (- e1 + (e1 - E)) with (- E) by lia. lia. }
    subst mr. destruct mrs1 as [m r s']; cbn [shr_m shr_r] in *.
    destruct r; [specialize (Hup eq_refl) | clear Hup];
      destruct s'; cbn [loc_of_shr_record round_nearest_even];
      try destruct (Z.even m); lia. }
  pose proof (shr_fexp_le_one mr e1 (proj1 Hmr) (proj2 Hmr) He1) as H2.
  destruct (shr_fexp prec emax mr e1 loc_Exact) as [mrs2 e2].
  destruct H2 as (He2 & _ & (Hm2 & _) & Hb2).
  destruct (shr_m mrs2) as [| m | m] eqn:Em; [reflexivity | | lia].
  replace (e2 <=? emax - prec) with true by (symmetry; apply Z.leb_le; unfold emax, prec; lia).
  cbn [SFabs]. unfold SFleb, binary64_one. cbn [SFcompare].
  destruct (Z.compare_spec e2 (-52)) as [Heq | Hlt | Hgt]; [| reflexivity | lia].
  subst e2. change (2 ^ (- -52)) with 4503599627370496 in Hb2.
  rewrite Pos.compare_cont_spec. cbn [Pos.switch_Eq].
  destruct (Pos.compare_spec m 4503599627370496); try reflexivity. lia.
Qed.

Lemma binary_round_aux_sign (s : bool) (M E : Z) :
  0 <= M ->
  match binary_round_aux prec emax s M E loc_Exact with
  | S754_zero s' | S754_infinity s' | S754_finite s' _ _ => s' = s
  | S754_nan => False
  end.
Proof.
  intros HM. unfold binary_round_aux, shr_fexp. cbn [shr_record_of_loc].
  match goal with |- context [shr ?r E ?n] =>
    pose proof (shr_shifted M E n HM) as H1; destruct (shr r E n) as [mrs1 e1] end.
  destruct H1 as (_ & Hm1 & _).
  set (mr := round_nearest_even (shr_m mrs1) (loc_of_shr_record mrs1)).
  assert (Hmr : 0 <= mr).
  { subst mr. destruct mrs1 as [m r s']; cbn [shr_m] in *.
    destruct r, s'; cbn [loc_of_shr_record round_nearest_even];
      try destruct (Z.even m); lia. }
  match goal with |- context [shr ?r e1 ?n] =>
    pose proof (shr_shifted mr e1 n Hmr) as H2; destruct (shr r e1 n) as [mrs2 e2] end.
  destruct H2 as (_ & Hm2 & _).
  destruct (shr_m mrs2) as [| m | m]; [reflexivity | | lia].
  destruct (e2 <=? emax - prec); reflexivity.
Qed.

Lemma valid_binary_le_one (s : bool) (m : positive) (e : Z) :
  valid_binary (S754_finite s m e) = true ->
  SFleb (SFabs (S754_finite s m e)) binary64_one = true ->
  e <= -52 /\ Zpos m <= 2 ^ (- e).
Proof.
  cbn [valid_binary SFabs]. unfold bounded, canonical_mantissa, SFleb, binary64_one.
  cbn [SFcompare]. intros Hv Hle.
  apply andb_true_iff in Hv as [Hc _]. apply Z.eqb_eq in Hc.
  pose proof (digits2_pos_bounds m) as [_ Hhi].
  assert (Hd : Zpos (digits2_pos m) <= 53) by (unfold fexp, prec in Hc; lia).
  assert (Hm : Zpos m < 2 ^ 53).
  { eapply Z.lt_le_trans; [exact Hhi |]. apply Z.pow_le_mono_r; lia. }
  destruct (Z.compare_spec e (-52)) as [Heq | Hlt | Hgt]; [| | discriminate].
  - subst e. split; [lia |]. change (2 ^ (- -52)) with 4503599627370496.
    rewrite Pos.compare_cont_spec in Hle. cbn [Pos.switch_Eq] in Hle.
    unfold Z.le. cbn [Z.compare]. intros Hgt. rewrite Hgt in Hle. discriminate Hle.
  - split; [lia |]. apply Z.lt_le_incl. eapply Z.lt_le_trans; [exact Hm |].
    apply Z.pow_le_mono_r; lia.
Qed.

Lemma SFmul_le_one (x y : spec_float) :
  valid_binary x = true -> valid_binary y = true ->
  SFleb (SFabs x) binary64_one = true -> SFleb (SFabs y) binary64_one = true ->
  SFleb (SFabs (SF64mul x y)) binary64_one = true.
Proof.
  intros Hvx Hvy Hx Hy.
  destruct x as [sx | sx | | sx mx ex]; try discriminate;
    destruct y as [sy | sy | | sy my ey]; try discriminate; try reflexivity.
  apply valid_binary_le_one in Hx as [Hex Hmx]; [| assumption].
  apply valid_binary_le_one in Hy as [Hey Hmy]; [| assumption].
  unfold SF64mul. cbn [SFmul]. apply binary_round_aux_le_one; try lia.
  rewrite Pos2Z.inj_mul. replace (- (ex + ey)) with (- ex + - ey) by lia.
  rewrite Z.pow_add_r by lia. apply Z.mul_le_mono_nonneg; lia.
Qed.

Lemma SFmul_one_l (y : spec_float) :
  valid_binary y = true -> SF64mul binary64_one y = y.
Proof.
  destruct y as [s | s | | s m e]; try reflexivity.
  cbn [valid_binary]. unfold bounded, canonical_mantissa. intros Hv.
  apply andb_true_iff in Hv as [Hc He]. apply Z.eqb_eq in Hc. apply Z.leb_le in He.
  unfold SF64mul, binary64_one. cbn [SFmul xorb].
  set (M := (4503599627370496 * m)%positive).
  cbv [Pos.mul] in M. subst M.
  unfold binary_round_aux, shr_fexp. cbn [shr_record_of_loc Zdigits2 digits2_pos].
  rewrite !Pos2Z.inj_succ.
  replace (fexp prec emax _ - (-52 + e)) with 52.
  2:{ match goal with |- 52 = fexp prec emax ?a - _ =>
        replace a with (Z.pos (digits2_pos m) + e) by lia end.
      rewrite Hc. lia. }
  cbn [shr SpecFloat.iter_pos shr_1 shr_m loc_of_shr_record round_nearest_even
       Zdigits2 orb].
  replace (-52 + e + 52) with e by lia.
  rewrite Hc, Z.sub_diag. cbn [shr shr_m].
  apply Z.leb_le in He. now rewrite He.
Qed.

Lemma pow_cancel_mul (a c j k : Z) :
  0 <= j -> 0 <= k -> a * 2 ^ j <= c * 2 ^ (k + j) -> a <= c * 2 ^ k.
Proof.
  intros Hj Hk H. rewrite Z.pow_add_r in H by lia.
  assert (0 < 2 ^ j) by (apply Z.pow_pos_nonneg; lia). nia.
Qed.

Lemma pow_cancel_mul_lt (a b c j k : Z) :
  0 <= j -> 0 <= k -> a * 2 ^ j < b -> b <= c * 2 ^ (k + j) -> a + 1 <= c * 2 ^ k.
Proof.
  intros Hj Hk H Hb. rewrite Z.pow_add_r in Hb by lia.
  assert (0 < 2 ^ j) by (apply Z.pow_pos_nonneg; lia). nia.
Qed.

Lemma bounded_fields (m : positive) (e : Z) :
  bounded prec emax m e = true ->
  -1074 <= e <= 971 /\ Zpos (digits2_pos m) <= 53 /\ Zpos m < 2 ^ Zpos (digits2_pos m).
Proof.
  unfold bounded, canonical_mantissa. intros Hv.
  apply andb_true_iff in Hv as [Hc He]. apply Z.eqb_eq in Hc. apply Z.leb_le in He.
  pose proof (digits2_pos_bounds m) as [_ Hhi].
  unfold fexp, SpecFloat.emin, prec, emax in *. lia.
Qed.

Lemma Zdigits2_le_mul (M E ms es : Z) (ds : Z) :
  0 <= M -> E <= es -> 0 <= ds -> 0 < ms < 2 ^ ds -> M <= ms * 2 ^ (es - E) ->
  Zdigits2 M + E <= ds + es.
Proof.
  intros HM HE Hds Hms Hle. destruct M as [| p | p]; cbn [Zdigits2]; try lia.
  pose proof (digits2_pos_bounds p) as [Hlo _].
  assert (Hp : 0 < 2 ^ (es - E)) by (apply Z.pow_pos_nonneg; lia).
  assert (Hlt : 2 ^ (Zpos (digits2_pos p) - 1) < 2 ^ (ds + (es - E))).
  { rewrite Z.pow_add_r by lia. nia. }
  apply Z.pow_lt_mono_r_iff in Hlt; lia.
Qed.

Lemma shr_fexp_le (M E : Z) (ms : positive) (es : Z) :
  0 <= M -> bounded prec emax ms es = true -> E <= es ->
  M <= Zpos ms * 2 ^ (es - E) ->
  let '(mrs, e) := shr_fexp prec emax M E loc_Exact in
  e <= es /\ E <= e /\ shifted M (e - E) mrs /\ shr_m mrs <= Zpos ms * 2 ^ (es - e).
Proof.
  intros HM Hb HE Hval. unfold shr_fexp. cbn [shr_record_of_loc].
  set (n := fexp prec emax (Zdigits2 M + E) - E).
  pose proof (shr_shifted M E n HM) as H.
  destruct (shr (Build_shr_record M false false) E n) as [mrs e].
  destruct H as (He & Hs).
  destruct (bounded_fields ms es Hb) as (Hes & Hds & Hms).
  assert (Hle : e <= es).
  { pose proof (Zdigits2_le_mul M E (Zpos ms) es (Zpos (digits2_pos ms)) HM HE
                  ltac:(lia) ltac:(lia) Hval) as Hd.
    subst n. unfold fexp, SpecFloat.emin, prec, emax in He. lia. }
  repeat split; try lia; try apply Hs.
  destruct Hs as (_ & Hle' & _).
  apply pow_cancel_mul with (j := e - E); try lia.
  replace (es - e + (e - E)) with (es - E) by lia. lia.
Qed.

Lemma binary_round_aux_le (s : bool) (M E : Z) (ms : positive) (es : Z) :
  0 <= M -> bounded prec emax ms es = true -> E <= es ->
  M <= Zpos ms * 2 ^ (es - E) ->
  SFleb (SFabs (binary_round_aux prec emax s M E loc_Exact)) (S754_finite false ms es)
  = true.
Proof.
  intros HM Hb HE Hval. unfold binary_round_aux.
  pose proof (shr_fexp_le M E ms es HM Hb HE Hval) as H1.
  destruct (shr_fexp prec emax M E loc_Exact) as [mrs1 e1].
  destruct H1 as (He1 & HEe1 & (Hm1 & Hle1 & Hlt1) & Hb1).
  set (mr := round_nearest_even (shr_m mrs1) (loc_of_shr_record mrs1)).
  assert (Hmr : 0 <= mr <= Zpos ms * 2 ^ (es - e1)).
  { assert (Hup : shr_r mrs1 = true -> shr_m mrs1 + 1 <= Zpos ms * 2 ^ (es - e1)).
    { intros Hr. apply pow_cancel_mul_lt with (b := M) (j := e1 - E); try lia.
      - now apply Hlt1.
      - replace (es - e1 + (e1 - E)) with (es - E) by lia. lia. }
    subst mr. destruct mrs1 as [m r s']; cbn [shr_m shr_r] in *.
    destruct r; [specialize (Hup eq_refl) | clear Hup];
      destruct s'; cbn [loc_of_shr_record round_nearest_even];
      try destruct (Z.even m); lia. }
  pose proof (shr_fexp_le mr e1 ms es (proj1 Hmr) Hb He1 (proj2 Hmr)) as H2.
  destruct (shr_fexp prec emax mr e1 loc_Exact) as [mrs2 e2].
  destruct H2 as (He2 & _ & (Hm2 & _) & Hb2).
  destruct (bounded_fields ms es Hb) as (Hes & _).
  destruct (shr_m mrs2) as [| m | m] eqn:Em; [reflexivity | | lia].
  replace (e2 <=? emax - prec) with true by (symmetry; apply Z.leb_le; unfold emax, prec; lia).
  cbn [SFabs]. unfold SFleb. cbn [SFcompare].
  destruct (Z.compare_spec e2 es) as [Heq | Hlt | Hgt]; [| reflexivity | lia].
  subst e2. rewrite Z.sub_diag, Z.pow_0_r, Z.mul_1_r in Hb2.
  assert (Hc : (Zpos m ?= Zpos ms) <> Gt) by (apply Z.compare_le_iff; exact Hb2).
  cbn [Z.compare] in Hc. unfold Pos.compare in Hc.
  destruct (Pos.compare_cont Eq m ms); [reflexivity | reflexivity | congruence].
Qed.


Lemma SFmul_le_factor (x y : spec_float) :
  valid_binary x = true -> valid_binary y = true ->
  SFleb (SFabs x) binary64_one = true ->
  SFltb (SFabs y) (S754_infinity false) = true ->
  SFleb (SFabs (SF64mul x y)) (SFabs y) = true.
Proof.
  intros Hvx Hvy Hx Hy.
  destruct x as [sx | sx | | sx mx ex]; try discriminate;
    destruct y as [sy | sy | | sy my ey]; try discriminate; try reflexivity.
  apply valid_binary_le_one in Hx as [Hex Hmx]; [| assumption].
  unfold SF64mul. cbn [SFmul SFabs]. cbn [valid_binary] in Hvy.
  apply binary_round_aux_le; try lia; try assumption.
  rewrite Pos2Z.inj_mul. replace (ey - (ex + ey)) with (- ex) by lia.
  rewrite Z.mul_comm. apply Z.mul_le_mono_nonneg_l; lia.
Qed.

Lemma SFmul_sign (x y : spec_float) :
  SFleb (S754_zero false) x = true -> SFleb x binary64_one = true ->
  SFltb (SFabs y) (S754_infinity false) = true ->
  (SFleb (S754_zero false) y = true -> SFleb (S754_zero false) (SF64mul x y) = true) /\
  (SFleb y (S754_zero false) = true -> SFleb (SF64mul x y) (S754_zero false) = true).
Proof.
  intros Hx0 Hx1 Hy.
  destruct x as [sx | sx | | sx mx ex]; try discriminate;
    destruct y as [sy | sy | | sy my ey]; try discriminate;
    try (destruct sx; try discriminate Hx0; try discriminate Hx1; destruct sy; split; intros Hy';
         try discriminate Hy'; reflexivity).
  destruct sx; [discriminate Hx0 |].
  unfold SF64mul. cbn [SFmul xorb].
  pose proof (binary_round_aux_sign sy (Zpos (mx * my)) (ex + ey) ltac:(lia)) as Hs.
  destruct (binary_round_aux prec emax sy (Zpos (mx * my)) (ex + ey) loc_Exact);
    try contradiction; subst;
    (split; intros Hy'; destruct sy; try discriminate Hy'; reflexivity).
Qed.

Lemma SFopp_mul_opp (x : spec_float) : SF64mul (SFopp x) (SFopp x) = SF64mul x x.
Proof.
  destruct x as [s | s | | s m e]; try reflexivity; cbn; destruct s; reflexivity.
Qed.

Local Open Scope float_scope.

Lemma Prim2SF_one : Prim2SF 1 = binary64_one.
Proof. reflexivity. Qed.

Lemma mul_abs_le_one (x y : float) :
  (abs x <=? 1) = true -> (abs y <=? 1) = true -> (abs (x * y) <=? 1) = true.
Proof.
  rewrite !FloatAxioms.leb_spec, !FloatAxioms.abs_spec, FloatAxioms.mul_spec, Prim2SF_one.
  apply SFmul_le_one; apply Prim2SF_valid.
Qed.

Lemma abs_le_one_of_range (y : float) :
  (0 <=? y) = true -> (y <=? 1) = true -> (abs y <=? 1) = true.
Proof.
  rewrite !FloatAxioms.leb_spec, FloatAxioms.abs_spec, Prim2SF_one.
  change (Prim2SF 0) with (S754_zero false).
  destruct (Prim2SF y) as [s | s | | s m e]; try discriminate; try reflexivity.
  - destruct s; discriminate.
  - destruct s; [discriminate | intros _ H; exact H].
Qed.

Lemma mul_neg_half_nonpos (p : float) :
  (0 <=? p) = true -> (-0.5 * p <=? 0) = true.
Proof.
  rewrite !FloatAxioms.leb_spec, FloatAxioms.mul_spec.
  change (Prim2SF 0) with (S754_zero false).
  change (Prim2SF (-0.5)) with (S754_finite true 4503599627370496 (-53)).
  destruct (Prim2SF p) as [s | s | | s m e]; try discriminate; try reflexivity.
  - destruct s; [discriminate | reflexivity].
  - destruct s; [discriminate | intros _].
    unfold SF64mul. cbn [SFmul xorb].
    pose proof (binary_round_aux_sign true (Zpos (4503599627370496 * m)) (-53 + e) ltac:(lia)) as Hs.
    destruct (binary_round_aux prec emax true (Zpos (4503599627370496 * m)) (-53 + e) loc_Exact);
      try contradiction; subst; reflexivity.
Qed.

Lemma mul_finite_pos_zero (x : float) :
  (0 <? x) = true -> (x <? infinity) = true -> x * 0 = 0.
Proof.
  rewrite !FloatAxioms.ltb_spec. intros Hpos Hfin. apply Prim2SF_inj. rewrite FloatAxioms.mul_spec.
  change (Prim2SF 0) with (S754_zero false) in *.
  change (Prim2SF infinity) with (S754_infinity false) in *.
  destruct (Prim2SF x) as [s | s | | s m e]; try discriminate.
  - destruct s; discriminate.
  - destruct s; [discriminate | reflexivity].
Qed.

Lemma mul_self_nonneg (x : float) :
  (x =? x) = true -> (0 <=? x * x) = true.
Proof.
  rewrite FloatAxioms.eqb_spec, FloatAxioms.leb_spec, FloatAxioms.mul_spec.
  change (Prim2SF 0) with (S754_zero false).
  destruct (Prim2SF x) as [s | s | | s m e]; try discriminate; intros _.
  - destruct s; reflexivity.
  - destruct s; reflexivity.
  - unfold SF64mul. cbn [SFmul].
    pose proof (binary_round_aux_sign (xorb s s) (Zpos (m * m)) (e + e) ltac:(lia)) as Hs.
    rewrite xorb_nilpotent in *.
    destruct (binary_round_aux prec emax false (Zpos (m * m)) (e + e) loc_Exact);
      try contradiction; subst; reflexivity.
Qed.

Lemma mul_one_l (x : float) : 1 * x = x.
Proof.
  apply Prim2SF_inj. rewrite FloatAxioms.mul_spec, Prim2SF_one.
  apply SFmul_one_l, Prim2SF_valid.
Qed.



Lemma abs_le_one_finite (y : float) :
  (abs y <=? 1) = true -> (abs y <? infinity) = true /\ is_finite y = true.
Proof.
  unfold is_finite, is_nan, is_infinity.
  rewrite FloatAxioms.leb_spec, FloatAxioms.ltb_spec, !FloatAxioms.eqb_spec,
    !FloatAxioms.abs_spec, Prim2SF_one.
  change (Prim2SF infinity) with (S754_infinity false).
  destruct (Prim2SF y) as [s | s | | s m e]; try discriminate; intros _.
  - split; reflexivity.
  - split; [reflexivity |]. unfold SFeqb. cbn [SFcompare SFabs].
    rewrite Z.compare_refl, Pos.compare_cont_refl. destruct s; reflexivity.
Qed.

Lemma mul_abs_le_factor (x y : float) :
  (abs x <=? 1) = true -> (abs y <? infinity) = true ->
  (abs (x * y) <=? abs y) = true.
Proof.
  rewrite !FloatAxioms.leb_spec, FloatAxioms.ltb_spec, !FloatAxioms.abs_spec,
    FloatAxioms.mul_spec, Prim2SF_one.
  change (Prim2SF infinity) with (S754_infinity false).
  apply SFmul_le_factor; apply Prim2SF_valid.
Qed.

Lemma mul_keeps_sign (x y : float) :
  (0 <=? x) = true -> (x <=? 1) = true -> (abs y <? infinity) = true ->
  ((0 <=? y) = true -> (0 <=? x * y) = true) /\
  ((y <=? 0) = true -> (x * y <=? 0) = true).
Proof.
  rewrite !FloatAxioms.leb_spec, FloatAxioms.ltb_spec, !FloatAxioms.abs_spec,
    FloatAxioms.mul_spec, Prim2SF_one.
  change (Prim2SF infinity) with (S754_infinity false).
  change (Prim2SF 0) with (S754_zero false).
  apply SFmul_sign.
Qed.

Lemma mul_opp_opp (x : float) : (- x) * (- x) = x * x.
Proof.
  apply Prim2SF_inj. rewrite !FloatAxioms.mul_spec, !FloatAxioms.opp_spec.
  apply SFopp_mul_opp.
Qed.


End Binary64.

(** ** The small C library stays in range *)

Section CrudeLibm.
Local Open Scope float_scope.

Lemma crude_exp_range (x : float) :
  (x <=? 0) = true ->
  (0 <=? crude_exp x) = true /\ (crude_exp x <=? 1) = true.
Proof.
  intros Hx. unfold crude_exp. rewrite Hx.
  destruct ((0 <=? crude_exp_series x) && (crude_exp_series x <=? 1)) eqn:Hin.
  - now apply andb_true_iff in Hin.
  - destruct (crude_exp_series x <? 0); split; reflexivity.
Qed.

Lemma crude_sin_range (x : float) : (abs (crude_sin x) <=? 1) = true.
Proof.
  unfold crude_sin.
  destruct (abs (crude_sin_series x) <=? 1) eqn:Hin; [exact Hin |].
  destruct (crude_sin_series x <? 0); reflexivity.
Qed.

Lemma crude_pow_nonneg (x : float) :
  (-4 <=? x) = true -> (0 <=? crude_pow x 2) = true.
Proof.
  intros Hx. unfold crude_pow. change (2 =? 2) with true. cbv iota.
  apply mul_self_nonneg.
  rewrite FloatAxioms.leb_spec in Hx. rewrite FloatAxioms.eqb_spec.
  destruct (Prim2SF x) as [s | s | | s m e]; try reflexivity.
  - destruct s; reflexivity.
  - discriminate Hx.
  - unfold SFeqb. cbn [SFcompare].
    rewrite Z.compare_refl, Pos.compare_cont_refl. destruct s; reflexivity.
Qed.

End CrudeLibm.

(** ** The signal *)

Section SignalFacts.
Context {libm : Libm}.
Local Open Scope float_scope.

Lemma range_length (n : nat) : length (Py.range n) = n.
Proof. unfold Py.range. now rewrite length_map, length_seq. Qed.

Lemma range_nth_error (n t : nat) :
  (t < n)%nat -> nth_error (Py.range n) t = Some (Z.of_nat t).
Proof.
  intros Ht. unfold Py.range.
  rewrite nth_error_map, nth_error_seq.
  destruct (Nat.ltb_spec t n) as [_ | Hge]; [reflexivity | lia].
Qed.

Lemma length_signal : length signal = 4092%nat.
Proof. unfold signal. now rewrite length_map, range_length. Qed.

Lemma signal_factors :
  signal = map (fun t => envelope t * carrier t) (Py.range 4092).
Proof. reflexivity. Qed.

Lemma signal_nth_error (t : nat) :
  (t < 4092)%nat ->
  nth_error signal t = Some (envelope (Z.of_nat t) * carrier (Z.of_nat t)).
Proof.
  intros Ht. rewrite signal_factors, nth_error_map, range_nth_error by exact Ht.
  reflexivity.
Qed.

Lemma args_in_range_all : forallb args_in_range (Py.range 4092) = true.
Proof. vm_compute. reflexivity. Qed.

Lemma peak_base : (2048.0 - Py.float_of_int 2048) / 512.0 = 0.
Proof. reflexivity. Qed.

Lemma peak_angle : Py.float_of_int 2048 / 100.0 = 20.48.
Proof. reflexivity. Qed.

Lemma first_angle : Py.float_of_int 0 / 100.0 = 0.
Proof. reflexivity. Qed.

End SignalFacts.

(** C2. The signal has exactly 4092 samples: position [t] holds a sample
    for every [t] from 0 to 4091, and there is none at 4092 or beyond. *)
Theorem signal_length (libm : Libm) :
  length signal = 4092%nat /\
  forall t : nat, (t < 4092)%nat <-> nth_error signal t <> None.
Proof.
  pose proof length_signal as Hlen.
  split; [exact Hlen |].
  intros t. rewrite nth_error_Some, Hlen. reflexivity.
Qed.

(** C6. At the centre index 2048 the envelope is exactly 1.0 and the sample
    is [sin(20.48)] times that 1.0, which is [sin(20.48)] itself. The C
    library gives [exp(-0.0) = 1.0], and Python [0.0 ** 2.0 = 0.0]. *)
Theorem signal_peak (libm : Libm) :
  float_pow 0%float 2%float = 0%float ->
  math_exp (-0)%float = 1%float ->
  envelope 2048 = 1%float /\
  nth_error signal 2048 = Some (1 * math_sin 20.48)%float /\
  nth_error signal 2048 = Some (math_sin 20.48%float).
Proof.
  intros Hpow Hexp.
  assert (Henv : envelope 2048 = 1%float).
  { unfold envelope. rewrite peak_base.
    change 2.0%float with 2%float. rewrite Hpow.
    change (-0.5 * 0)%float with (-0)%float. exact Hexp. }
  assert (Hnth : nth_error signal 2048 = Some (1 * math_sin 20.48)%float).
  { rewrite (signal_nth_error 2048) by lia.
    change (Z.of_nat 2048) with 2048%Z. rewrite Henv.
    unfold carrier. now rewrite peak_angle. }
  repeat split; try assumption.
  now rewrite Hnth, mul_one_l.
Qed.

Lemma signal_peak_witness :
  @envelope crude_libm 2048 = 1%float /\
  nth_error (@signal crude_libm) 2048 = Some (1 * crude_sin 20.48)%float /\
  nth_error (@signal crude_libm) 2048 = Some (crude_sin 20.48%float).
Proof.
  apply (signal_peak crude_libm); reflexivity.
Defined.

(** C10. The sample at index 0 is exactly 0.0: [sin(0.0)] is 0.0, and the
    envelope factor there is finite and positive. *)
Theorem signal_first (libm : Libm) :
  math_sin 0%float = 0%float ->
  (0 <? envelope 0)%float = true ->
  (envelope 0 <? infinity)%float = true ->
  nth_error signal 0 = Some 0%float.
Proof.
  intros Hsin Hpos Hfin.
  rewrite (signal_nth_error 0) by lia. change (Z.of_nat 0) with 0%Z.
  unfold carrier. rewrite first_angle, Hsin.
  now rewrite mul_finite_pos_zero.
Qed.

Lemma signal_first_witness :
  nth_error (@signal crude_libm) 0 = Some 0%float.
Proof.
  apply (signal_first crude_libm); reflexivity.
Defined.

(** C9. Every one of the 4092 samples has absolute value at most 1: the
    envelope is [exp] of a non-positive number, hence in [[0, 1]], the
    sine is in [[-1, 1]], and the binary64 product of two such numbers
    rounds to at most 1. *)
Theorem signal_bounded (libm : Libm) :
  (forall x, (x <=? 0)%float = true ->
             (0 <=? math_exp x)%float = true /\ (math_exp x <=? 1)%float = true) ->
  (forall x, is_finite x = true -> (abs (math_sin x) <=? 1)%float = true) ->
  (forall x, (-4 <=? x)%float = true -> (x <=? 4)%float = true ->
             (0 <=? float_pow x 2)%float = true) ->
  length signal = 4092%nat /\
  Forall (fun y => (abs y <=? 1)%float = true) signal.
Proof.
  intros Hexp Hsin Hpow. split; [apply length_signal |].
  rewrite signal_factors. apply List.Forall_map, List.Forall_forall.
  intros t Ht.
  pose proof (proj1 (List.forallb_forall _ _) args_in_range_all t Ht) as Hargs.
  unfold args_in_range in Hargs.
  apply andb_true_iff in Hargs as [Hargs Hfinite].
  apply andb_true_iff in Hargs as [Hlo Hhi].
  apply mul_abs_le_one.
  - unfold envelope. change 2.0%float with 2%float.
    destruct (Hexp (-0.5 * float_pow ((2048.0 - Py.float_of_int t) / 512.0) 2)%float)
      as [H0 H1].
    + apply mul_neg_half_nonpos. now apply Hpow.
    + now apply abs_le_one_of_range.
  - unfold carrier. now apply Hsin.
Qed.

Lemma signal_bounded_witness :
  length (@signal crude_libm) = 4092%nat /\
  Forall (fun y => (abs y <=? 1)%float = true) (@signal crude_libm).
Proof.
  apply (signal_bounded crude_libm).
  - exact crude_exp_range.
  - intros x _. exact (crude_sin_range x).
  - intros x Hlo _. exact (crude_pow_nonneg x Hlo).
Defined.

(** ** Paths: the output file is the script's sibling *)

Section Paths.
Import Py.
Local Open Scope string_scope.

Lemma append_nil_l (s : string) : EmptyString ++ s = s.
Proof. reflexivity. Qed.

Lemma append_cons (c : ascii) (r s : string) : String c r ++ s = String c (r ++ s).
Proof. reflexivity. Qed.

Lemma append_sep (x n : string) :
  (x ++ String sep EmptyString) ++ n = x ++ String sep n.
Proof.
  induction x as [| c r IH]; [reflexivity |].
  rewrite !append_cons. now rewrite IH.
Qed.

Lemma rsplit_sep_no_sep (n : string) :
  has_sep n = false -> rsplit_sep n = (EmptyString, n).
Proof.
  induction n as [| c r IH]; cbn [has_sep rsplit_sep]; [reflexivity |].
  intros H. apply orb_false_iff in H as [Hc Hr].
  rewrite (IH Hr), Hc. reflexivity.
Qed.

Lemma rsplit_sep_app (x n : string) :
  has_sep n = false ->
  rsplit_sep (x ++ String sep n) = (x ++ String sep EmptyString, n).
Proof.
  intros Hn. induction x as [| c r IH].
  - rewrite !append_nil_l. cbn [rsplit_sep].
    rewrite (rsplit_sep_no_sep n Hn). reflexivity.
  - rewrite !append_cons. cbn [rsplit_sep]. rewrite IH. destruct r; reflexivity.
Qed.

Lemma endswith_sep_split (d : string) :
  endswith_sep d = true -> exists x, d = x ++ String sep EmptyString.
Proof.
  induction d as [| c r IH]; [discriminate |].
  destruct r as [| c' r'].
  - cbn [endswith_sep]. unfold is_sep. intros H. apply Ascii.eqb_eq in H. subst c.
    now exists EmptyString.
  - intros H. destruct (IH H) as [x Hx]. exists (String c x).
    rewrite append_cons. now rewrite <- Hx.
Qed.

Lemma endswith_sep_rstrip (s : string) : endswith_sep (rstrip_sep s) = false.
Proof.
  induction s as [| c r IH]; [reflexivity |]. cbn [rstrip_sep].
  destruct (rstrip_sep r) as [| c' r'] eqn:Hr.
  - destruct (is_sep c) eqn:Hc; [reflexivity | cbn [endswith_sep]; exact Hc].
  - exact IH.
Qed.

Lemma rstrip_sep_app (d : string) :
  rstrip_sep (d ++ String sep EmptyString) = rstrip_sep d.
Proof.
  induction d as [| c r IH]; [reflexivity |].
  rewrite append_cons. cbn [rstrip_sep]. now rewrite IH.
Qed.

Lemma rstrip_sep_cons (c : ascii) (r : string) :
  rstrip_sep (String c r) =
  match rstrip_sep r with
  | EmptyString => if is_sep c then EmptyString else String c EmptyString
  | r' => String c r'
  end.
Proof. reflexivity. Qed.

Lemma rstrip_sep_id (d : string) : endswith_sep d = false -> rstrip_sep d = d.
Proof.
  induction d as [| c r IH]; [reflexivity |].
  destruct r as [| c' r'].
  - cbn [endswith_sep rstrip_sep]. now intros ->.
  - intros H. rewrite rstrip_sep_cons, (IH H). reflexivity.
Qed.

Lemma all_sep_endswith (d : string) :
  all_sep d = true -> nonempty d = true -> endswith_sep d = true.
Proof.
  induction d as [| c r IH]; [discriminate |].
  cbn [all_sep]. intros H _. apply andb_true_iff in H as [Hc Hr].
  destruct r as [| c' r']; [exact Hc |]. now apply IH.
Qed.

Lemma all_sep_app (d : string) :
  all_sep (d ++ String sep EmptyString) = all_sep d.
Proof.
  induction d as [| c r IH]; [reflexivity |].
  rewrite append_cons. cbn [all_sep]. now rewrite IH.
Qed.

Lemma dirname_shape (p : string) :
  all_sep (dirname p) = true \/ endswith_sep (dirname p) = false.
Proof.
  unfold dirname. destruct (fst (rsplit_sep p)) as [| c r] eqn:Hh; [now left |].
  cbn [nonempty andb].
  destruct (all_sep (String c r)) eqn:Ha; cbn [negb]; [now left | right].
  apply endswith_sep_rstrip.
Qed.

Lemma join_dirname (d n : string) :
  has_sep n = false -> startswith_sep n = false ->
  all_sep d = true \/ endswith_sep d = false ->
  basename (join d n) = n /\ dirname (join d n) = d.
Proof.
  intros Hn Hs Hd. unfold join. rewrite Hs.
  destruct d as [| c r].
  { cbn [nonempty negb orb]. rewrite append_nil_l. unfold basename, dirname.
    rewrite (rsplit_sep_no_sep n Hn). now split. }
  cbn [nonempty negb orb].
  destruct (endswith_sep (String c r)) eqn:He.
  - destruct Hd as [Ha | Hd]; [| discriminate].
    destruct (endswith_sep_split _ He) as [x Hx]. rewrite Hx in *.
    rewrite append_sep.
    unfold basename, dirname. rewrite (rsplit_sep_app x n Hn). cbn [fst snd].
    rewrite Ha, andb_false_r. now split.
  - unfold basename, dirname. rewrite (rsplit_sep_app (String c r) n Hn). cbn [fst snd].
    assert (Ha : all_sep (String c r) = false).
    { destruct (all_sep (String c r)) eqn:Ha; [| reflexivity].
      rewrite (all_sep_endswith _ Ha eq_refl) in He. discriminate. }
    rewrite all_sep_app, Ha, append_cons. cbn [nonempty andb negb].
    split; [reflexivity |].
    rewrite <- append_cons, rstrip_sep_app. now apply rstrip_sep_id.
Qed.

Lemma output_path_sibling (file : string) :
  basename (output_path file) = "1d_signal.bson" /\
  dirname (output_path file) = dirname file.
Proof.
  unfold output_path. apply join_dirname; [reflexivity | reflexivity |].
  apply dirname_shape.
Qed.

End Paths.

(** ** The BSON encoding can be decoded *)

Section WireFacts.
Import Wire.
Local Open Scope Z_scope.






































End WireFacts.

(** ** Running the script *)

Section Run.
Context {libm : Libm} {bson : Bson}.

Lemma fresh_handle (w : World) : handles w !! fresh (dom (handles w)) = None.
Proof. apply not_elem_of_dom, is_fresh. Qed.

Lemma close_fresh (w : World) (p : string) :
  delete (fresh (dom (handles w))) (<[fresh (dom (handles w)) := p]> (handles w))
  = handles w.
Proof. rewrite delete_insert_eq. apply delete_id, fresh_handle. Qed.

Lemma append_to_truncated (p : string) (data : bytes) (fs : gmap string bytes) :
  append_to p data (<[p := []]> fs) = <[p := data]> fs.
Proof.
  unfold append_to. rewrite lookup_insert_eq, insert_insert_eq. reflexivity.
Qed.

(** The three ways a run goes, by the system's answer on the output path. *)
Lemma main_run (file : string) (w : World) :
  let p := output_path file in
  let data := bson_encode signal_document in
  main file w =
  match faults w p with
  | Some (DenyOpen e) => (Raise e, log (EvOpen p) w)
  | Some (FailWrite n e) =>
    (Raise e, mkWorld (<[p := take n data]> (files w)) (handles w) (faults w)
                      (trace w ++ [EvOpen p; EvWrite p data; EvClose p]))
  | None =>
    (Ok tt, mkWorld (<[p := data]> (files w)) (handles w) (faults w)
                    (trace w ++ [EvOpen p; EvWrite p data; EvClose p]))
  end.
Proof.
  intros p data. unfold main, with_open, io_open. cbn [log faults handles files trace].
  fold p. destruct (faults w p) as [[e | n e] |] eqn:Hf; [reflexivity | |].
  - unfold io_bind, io_write. cbn [handles faults files trace log].
    rewrite lookup_insert_eq. cbn [handles faults files trace log]. rewrite Hf.
    unfold io_close. cbn [handles faults files trace log].
    rewrite lookup_insert_eq. cbn [handles faults files trace log].
    fold data. rewrite close_fresh, append_to_truncated, <- !app_assoc. reflexivity.
  - unfold io_bind, io_write. cbn [handles faults files trace log].
    rewrite lookup_insert_eq. cbn [handles faults files trace log]. rewrite Hf.
    unfold io_ret, io_close. cbn [handles faults files trace log].
    rewrite lookup_insert_eq. cbn [handles faults files trace log].
    fold data. rewrite close_fresh, append_to_truncated, <- !app_assoc. reflexivity.
Qed.

Lemma main_outcome (file : string) (w : World) :
  outcome file w =
  match faults w (output_path file) with
  | Some (DenyOpen e) | Some (FailWrite _ e) => Raise e
  | None => Ok tt
  end.
Proof.
  unfold outcome. rewrite main_run.
  destruct (faults w (output_path file)) as [[e | n e] |]; reflexivity.
Qed.

Lemma main_ok (file : string) (w : World) :
  outcome file w = Ok tt <-> path_writable w (output_path file).
Proof.
  rewrite main_outcome. unfold path_writable.
  destruct (faults w (output_path file)) as [[e | n e] |]; split; congruence.
Qed.

Lemma main_ok_after (file : string) (w : World) :
  path_writable w (output_path file) ->
  after file w =
  mkWorld (<[output_path file := bson_encode signal_document]> (files w))
          (handles w) (faults w)
          (trace w ++ [EvOpen (output_path file);
                       EvWrite (output_path file) (bson_encode signal_document);
                       EvClose (output_path file)]).
Proof.
  unfold path_writable, after. intros Hw. now rewrite main_run, Hw.
Qed.

Lemma after_faults (file : string) (w : World) : faults (after file w) = faults w.
Proof.
  unfold after. rewrite main_run.
  destruct (faults w (output_path file)) as [[e | n e] |]; reflexivity.
Qed.

Lemma after_handles (file : string) (w : World) : handles (after file w) = handles w.
Proof.
  unfold after. rewrite main_run.
  destruct (faults w (output_path file)) as [[e | n e] |]; reflexivity.
Qed.

Lemma count_opens_app (tr1 tr2 : list event) :
  count_opens (tr1 ++ tr2) = (count_opens tr1 + count_opens tr2)%nat.
Proof. unfold count_opens. now rewrite List.filter_app, length_app. Qed.


End Run.

(** ** The model, run on examples *)

Example output_path_in_directory :
  output_path "examples/1d_signal.py" = "examples/1d_signal.bson"%string.
Proof. reflexivity. Qed.

Example output_path_bare : output_path "1d_signal.py" = "1d_signal.bson"%string.
Proof. reflexivity. Qed.

Example output_path_at_root : output_path "/1d_signal.py" = "/1d_signal.bson"%string.
Proof. reflexivity. Qed.

Example dirname_trailing_slashes : Py.dirname "/srv//rems///gen.py" = "/srv//rems"%string.
Proof. reflexivity. Qed.

Example encode_small_document :
  Wire.encode [("a"%string, VInt 1)]
  = [Byte.x0c; Byte.x00; Byte.x00; Byte.x00; Byte.x10; Byte.x61; Byte.x00;
     Byte.x01; Byte.x00; Byte.x00; Byte.x00; Byte.x00].
Proof. vm_compute. reflexivity. Qed.

Example encode_double_one :
  Wire.enc_double 1%float
  = [Byte.x00; Byte.x00; Byte.x00; Byte.x00; Byte.x00; Byte.x00; Byte.xf0; Byte.x3f].
Proof. vm_compute. reflexivity. Qed.

Example decode_nested_document :
  Wire.decode
    (Wire.encode [("x"%string, VFloat 1%float);
                  ("l"%string, VList [VFloat (-2.5)%float; VInt 5000000000]);
                  ("d"%string, VDict [("k"%string, VInt (-1))])])
  = Some [("x"%string, VFloat 1%float);
          ("l"%string, VList [VFloat (-2.5)%float; VInt 5000000000]);
          ("d"%string, VDict [("k"%string, VInt (-1))])].
Proof. vm_compute. reflexivity. Qed.

Example crude_sample_1000 :
  nth_error (@signal crude_libm) 1000 = Some (-0.066962945901031287)%float.
Proof. vm_compute. reflexivity. Qed.

Example run_in_readonly_world :
  @main crude_libm wire_bson "examples/1d_signal.py" readonly_world
  = (Raise (OSError 13),
     mkWorld ∅ ∅ (faults readonly_world) [EvOpen "examples/1d_signal.bson"]).
Proof. rewrite main_run. reflexivity. Qed.

Example scaled_value_three_halves :
  scaled_value 1 (Prim2SF 1.5%float) = Some 3%Z /\
  scaled_value 0 (Prim2SF 1.5%float) = None /\
  scaled_value 9 (Prim2SF (envelope_arg 4091)) = Some (-2043)%Z.
Proof. vm_compute. repeat split. Qed.

Example envelope_arg_ends :
  envelope_arg 0 = 4%float /\ envelope_arg 4091 = (-3.990234375)%float.
Proof. vm_compute. split; reflexivity. Qed.

(** C3. The document that is encoded and written has exactly two top-level
    fields: [_version], the integer 0, and [ex], the list of the 4092
    samples, each a float. Where the system lets the output path be
    written, the run succeeds, its one [write] call is given the encoding
    of that document, and the output file holds it afterwards. *)
Theorem document_fields (libm : Libm) (bson : Bson) (file : string) (w : World) :
  path_writable w (output_path file) ->
  dict_keys signal_document = ["ex"%string; "_version"%string] /\
  dict_get "_version" signal_document = Some (VInt 0) /\
  dict_get "ex" signal_document = Some (VList (map VFloat signal)) /\
  length (map VFloat signal) = 4092%nat /\
  (forall k : string,
      dict_get k signal_document <> None -> k = "ex"%string \/ k = "_version"%string) /\
  outcome file w = Ok tt /\
  trace (after file w)
  = trace w ++ [EvOpen (output_path file);
                EvWrite (output_path file) (bson_encode signal_document);
                EvClose (output_path file)] /\
  files (after file w) !! output_path file = Some (bson_encode signal_document).
Proof.
  intros Hw.
  split; [reflexivity |]. split; [reflexivity |]. split; [reflexivity |].
  split; [rewrite length_map; apply length_signal |].
  split.
  - intros k Hk. cbn [signal_document dict_get] in Hk.
    destruct (String.eqb_spec k "ex"); [now left |].
    destruct (String.eqb_spec k "_version"); [now right | contradiction].
  - split; [now apply main_ok |].
    rewrite main_ok_after by exact Hw. cbn [files trace].
    split; [reflexivity | apply lookup_insert_eq].
Qed.

Lemma document_fields_witness :
  dict_keys (@signal_document crude_libm) = ["ex"%string; "_version"%string] /\
  dict_get "_version" (@signal_document crude_libm) = Some (VInt 0) /\
  dict_get "ex" (@signal_document crude_libm)
  = Some (VList (map VFloat (@signal crude_libm))) /\
  length (map VFloat (@signal crude_libm)) = 4092%nat /\
  (forall k : string,
      dict_get k (@signal_document crude_libm) <> None ->
      k = "ex"%string \/ k = "_version"%string) /\
  @outcome crude_libm wire_bson "examples/1d_signal.py" stale_world = Ok tt /\
  trace (@after crude_libm wire_bson "examples/1d_signal.py" stale_world)
  = trace stale_world
    ++ [EvOpen (output_path "examples/1d_signal.py");
        EvWrite (output_path "examples/1d_signal.py")
                (Wire.encode (@signal_document crude_libm));
        EvClose (output_path "examples/1d_signal.py")] /\
  files (@after crude_libm wire_bson "examples/1d_signal.py" stale_world)
    !! output_path "examples/1d_signal.py"
  = Some (Wire.encode (@signal_document crude_libm)).
Proof.
  apply (document_fields crude_libm wire_bson "examples/1d_signal.py" stale_world).
  reflexivity.
Defined.

(** C7. A run changes one file and nothing else: the file named
    [1d_signal.bson] in the script's directory, created or overwritten with
    the encoded document. Every other file, the open file objects and the
    system's settings are as before, and every I/O call is on that path. *)
Theorem main_frame (libm : Libm) (bson : Bson) (file : string) (w : World) :
  Py.basename (output_path file) = "1d_signal.bson"%string /\
  Py.dirname (output_path file) = Py.dirname file /\
  (forall q : string,
      q <> output_path file -> files (after file w) !! q = files w !! q) /\
  handles (after file w) = handles w /\
  faults (after file w) = faults w /\
  (exists evs : list event,
      trace (after file w) = trace w ++ evs /\
      List.Forall (fun ev => event_path ev = output_path file) evs) /\
  (outcome file w = Ok tt ->
   files (after file w) !! output_path file = Some (bson_encode signal_document)).
Proof.
  destruct (output_path_sibling file) as [Hbase Hdir].
  split; [exact Hbase |]. split; [exact Hdir |].
  split; [| split; [apply after_handles | split; [apply after_faults |]]].
  - intros q Hq. unfold after. rewrite main_run.
    destruct (faults w (output_path file)) as [[e | n e] |]; cbn [snd files log];
      try reflexivity; now apply lookup_insert_ne.
  - split.
    + unfold after. rewrite main_run.
      destruct (faults w (output_path file)) as [[e | n e] |]; cbn [snd trace log];
        eexists; (split; [reflexivity | repeat constructor]).
    + intros Hok. apply main_ok in Hok.
      rewrite main_ok_after by exact Hok. cbn [files]. apply lookup_insert_eq.
Qed.

(** C8. A run fails exactly when the system does not let the output path
    be written. The error the system gave is what the run raises. There is
    one [open] call and no second attempt; after a refused [open] no file
    has changed, and after a failed [write] the output file keeps the part
    that was written. The file object is closed on every path. *)
Theorem main_failure (libm : Libm) (bson : Bson) (file : string) (w : World) :
  (outcome file w <> Ok tt <-> ~ path_writable w (output_path file)) /\
  (forall e : exn,
      faults w (output_path file) = Some (DenyOpen e) ->
      outcome file w = Raise e /\
      files (after file w) = files w /\
      trace (after file w) = trace w ++ [EvOpen (output_path file)]) /\
  (forall (n : nat) (e : exn),
      faults w (output_path file) = Some (FailWrite n e) ->
      outcome file w = Raise e /\
      files (after file w)
      = <[output_path file := take n (bson_encode signal_document)]> (files w) /\
      trace (after file w)
      = trace w ++ [EvOpen (output_path file);
                    EvWrite (output_path file) (bson_encode signal_document);
                    EvClose (output_path file)]) /\
  handles (after file w) = handles w /\
  count_opens (trace (after file w)) = S (count_opens (trace w)).
Proof.
  split; [now rewrite main_ok |].
  split; [| split; [| split; [apply after_handles |]]].
  - intros e He. rewrite main_outcome. unfold after. rewrite main_run, He. now cbn.
  - intros n e He. rewrite main_outcome. unfold after. rewrite main_run, He. now cbn.
  - unfold after. rewrite main_run.
    destruct (faults w (output_path file)) as [[e | n e] |]; cbn [snd trace log];
      rewrite count_opens_app; cbn; lia.
Qed.

(** C5. The script reads nothing: two runs that succeed, from any two
    worlds, leave the same bytes in the output file, the encoding of the
    same document; and a second run after a first one succeeds and leaves
    every file as the first run left it. *)
Theorem main_deterministic (libm : Libm) (bson : Bson) (file : string)
  (w1 w2 : World) :
  outcome file w1 = Ok tt ->
  outcome file w2 = Ok tt ->
  files (after file w1) !! output_path file = Some (bson_encode signal_document) /\
  files (after file w2) !! output_path file
  = files (after file w1) !! output_path file /\
  outcome file (after file w1) = Ok tt /\
  files (after file (after file w1)) = files (after file w1).
Proof.
  intros H1 H2. apply main_ok in H1, H2.
  assert (H1' : path_writable (after file w1) (output_path file)).
  { unfold path_writable. now rewrite after_faults. }
  rewrite (main_ok_after file (after file w1) H1').
  rewrite (main_ok_after file w1 H1), (main_ok_after file w2 H2). cbn [files].
  rewrite !lookup_insert_eq, insert_insert_eq.
  repeat split. apply main_ok. unfold path_writable. exact H1.
Qed.

Lemma main_deterministic_witness :
  files (@after crude_libm wire_bson "examples/1d_signal.py" empty_world)
    !! output_path "examples/1d_signal.py"
  = Some (Wire.encode (@signal_document crude_libm)) /\
  files (@after crude_libm wire_bson "examples/1d_signal.py" stale_world)
    !! output_path "examples/1d_signal.py"
  = files (@after crude_libm wire_bson "examples/1d_signal.py" empty_world)
      !! output_path "examples/1d_signal.py" /\
  @outcome crude_libm wire_bson "examples/1d_signal.py"
    (@after crude_libm wire_bson "examples/1d_signal.py" empty_world) = Ok tt /\
  files (@after crude_libm wire_bson "examples/1d_signal.py"
           (@after crude_libm wire_bson "examples/1d_signal.py" empty_world))
  = files (@after crude_libm wire_bson "examples/1d_signal.py" empty_world).
Proof.
  apply (main_deterministic crude_libm wire_bson "examples/1d_signal.py"
           empty_world stale_world);
    apply main_ok; reflexivity.
Defined.

(** * More about the script *)

(** ** The arguments of the C library calls *)

Section Arguments.
Context {libm : Libm}.
Local Open Scope float_scope.

Lemma args_exact_all : forallb args_exact (Py.range 4092) = true.
Proof. vm_compute. reflexivity. Qed.

Lemma mirrored_all : forallb mirrored (map Z.of_nat (seq 1 2043)) = true.
Proof. vm_compute. reflexivity. Qed.

Lemma envelope_unfold (t : Z) :
  envelope t = math_exp (-0.5 * float_pow (envelope_arg t) 2).
Proof. reflexivity. Qed.

Lemma envelope_arg_mirror (k : nat) :
  (1 <= k <= 2043)%nat ->
  envelope_arg (2048 + Z.of_nat k) = - envelope_arg (2048 - Z.of_nat k).
Proof.
  intros Hk. apply FloatAxioms.Leibniz.eqb_spec.
  apply (proj1 (List.forallb_forall _ _) mirrored_all (Z.of_nat k)).
  apply List.in_map, List.in_seq. lia.
Qed.

(** With [exp] in [[0, 1]] on non-positive numbers and a non-negative
    square, the envelope is in [[0, 1]] at every index. *)
Lemma envelope_range (t : Z) :
  (forall x, (x <=? 0) = true ->
             (0 <=? math_exp x) = true /\ (math_exp x <=? 1) = true) ->
  (forall x, (-4 <=? x) = true -> (x <=? 4) = true -> (0 <=? float_pow x 2) = true) ->
  In t (Py.range 4092) ->
  (0 <=? envelope t) = true /\ (envelope t <=? 1) = true.
Proof.
  intros Hexp Hpow Ht.
  pose proof (proj1 (List.forallb_forall _ _) args_in_range_all t Ht) as Hargs.
  unfold args_in_range in Hargs.
  apply andb_true_iff in Hargs as [Hargs _].
  apply andb_true_iff in Hargs as [Hlo Hhi].
  rewrite envelope_unfold. apply Hexp, mul_neg_half_nonpos. now apply Hpow.
Qed.

End Arguments.

(** X1. At every index the script hands the C library exact, small numbers:
    the conversion of [t] to a float is [t] itself, [(2048.0 - t)/512.0] is
    the fraction [(2048 - t)/512] without rounding, and [t/100.] lies in
    [[0, 40.91]]. *)
Theorem script_arguments_exact :
  List.Forall
    (fun t : Z =>
       scaled_value 0 (Prim2SF (Py.float_of_int t)) = Some t /\
       scaled_value 9 (Prim2SF ((2048.0 - Py.float_of_int t) / 512.0)%float)
       = Some (2048 - t)%Z /\
       (0 <=? Py.float_of_int t / 100.0)%float = true /\
       (Py.float_of_int t / 100.0 <=? 40.91)%float = true)
    (Py.range 4092).
Proof.
  apply List.Forall_forall. intros t Ht.
  pose proof (proj1 (List.forallb_forall _ _) args_exact_all t Ht) as H.
  unfold args_exact, envelope_arg, carrier_arg in H.
  destruct (scaled_value 0 (Prim2SF (Py.float_of_int t))) as [z |]; [| discriminate H].
  destruct (scaled_value 9 _) as [b |]; [| discriminate H].
  apply andb_true_iff in H as [H Hhi]. apply andb_true_iff in H as [H Hlo].
  apply andb_true_iff in H as [Hz Hb].
  apply Z.eqb_eq in Hz, Hb. subst z b. repeat split; assumption.
Qed.

(** X2. The envelope is symmetric about its centre: the samples at
    [2048 + k] and [2048 - k] have the same envelope factor, for every [k]
    up to 2043, where the signal ends. The power is even in its base. *)
Theorem envelope_symmetric (libm : Libm) (k : nat) :
  (forall x : float, float_pow (- x)%float 2%float = float_pow x 2%float) ->
  (k <= 2043)%nat ->
  envelope (2048 + Z.of_nat k) = envelope (2048 - Z.of_nat k).
Proof.
  intros Heven Hk. destruct k as [| k]; [reflexivity |].
  rewrite !envelope_unfold, envelope_arg_mirror by lia.
  now rewrite Heven.
Qed.

Lemma envelope_symmetric_witness :
  @envelope crude_libm (2048 + Z.of_nat 1500) = @envelope crude_libm (2048 - Z.of_nat 1500).
Proof.
  apply (envelope_symmetric crude_libm 1500).
  - intros x. cbn [float_pow crude_libm]. unfold crude_pow.
    change (2 =? 2)%float with true. cbv iota. apply mul_opp_opp.
  - lia.
Defined.

(** X3. Every sample is a finite number between zero and its sine: it is
    not NaN or infinite, its absolute value is at most that of
    [sin(t/100.)], and it is not of the opposite sign. *)
Theorem signal_within_carrier (libm : Libm) (t : nat) :
  (forall x, (x <=? 0)%float = true ->
             (0 <=? math_exp x)%float = true /\ (math_exp x <=? 1)%float = true) ->
  (forall x, is_finite x = true -> (abs (math_sin x) <=? 1)%float = true) ->
  (forall x, (-4 <=? x)%float = true -> (x <=? 4)%float = true ->
             (0 <=? float_pow x 2)%float = true) ->
  (t < 4092)%nat ->
  exists y : float,
    nth_error signal t = Some y /\
    is_finite y = true /\
    (abs y <=? abs (math_sin (Py.float_of_int (Z.of_nat t) / 100.0)))%float = true /\
    ((0 <=? math_sin (Py.float_of_int (Z.of_nat t) / 100.0))%float = true ->
     (0 <=? y)%float = true) /\
    ((math_sin (Py.float_of_int (Z.of_nat t) / 100.0) <=? 0)%float = true ->
     (y <=? 0)%float = true).
Proof.
  intros Hexp Hsin Hpow Ht.
  assert (Hin : In (Z.of_nat t) (Py.range 4092)).
  { unfold Py.range. apply List.in_map, List.in_seq. lia. }
  destruct (envelope_range (Z.of_nat t) Hexp Hpow Hin) as [He0 He1].
  pose proof (proj1 (List.forallb_forall _ _) args_in_range_all _ Hin) as Hargs.
  unfold args_in_range in Hargs. apply andb_true_iff in Hargs as [_ Hfinite].
  pose proof (Hsin _ Hfinite) as Hs.
  destruct (abs_le_one_finite _ Hs) as [Hsfin _].
  pose proof (abs_le_one_of_range _ He0 He1) as Hea.
  exists (envelope (Z.of_nat t) * carrier (Z.of_nat t))%float.
  split; [now apply signal_nth_error |]. unfold carrier.
  split; [apply abs_le_one_finite; now apply mul_abs_le_one |].
  split; [now apply mul_abs_le_factor |].
  now apply mul_keeps_sign.
Qed.

Lemma signal_within_carrier_witness :
  exists y : float,
    nth_error (@signal crude_libm) 1000 = Some y /\
    is_finite y = true /\
    (abs y <=? abs (crude_sin (Py.float_of_int (Z.of_nat 1000) / 100.0)))%float = true /\
    ((0 <=? crude_sin (Py.float_of_int (Z.of_nat 1000) / 100.0))%float = true ->
     (0 <=? y)%float = true) /\
    ((crude_sin (Py.float_of_int (Z.of_nat 1000) / 100.0) <=? 0)%float = true ->
     (y <=? 0)%float = true).
Proof.
  apply (signal_within_carrier crude_libm 1000).
  - exact crude_exp_range.
  - intros x _. exact (crude_sin_range x).
  - intros x Hlo _. exact (crude_pow_nonneg x Hlo).
  - lia.
Defined.



(** X5. A run makes its I/O calls in one order: it opens the output path;
    unless that is refused, it writes the whole encoding in a single call
    and closes the file. A run that succeeds made exactly these three
    calls, and a refused open is followed by no call at all. *)
Theorem main_protocol (libm : Libm) (bson : Bson) (file : string) (w : World) :
  exists evs : list event,
    trace (after file w) = trace w ++ EvOpen (output_path file) :: evs /\
    (evs = [] \/
     evs = [EvWrite (output_path file) (bson_encode signal_document);
            EvClose (output_path file)]) /\
    (evs = [] <-> exists e : exn, faults w (output_path file) = Some (DenyOpen e)) /\
    (outcome file w = Ok tt ->
     evs = [EvWrite (output_path file) (bson_encode signal_document);
            EvClose (output_path file)]).
Proof.
  rewrite main_outcome. unfold after. rewrite main_run.
  destruct (faults w (output_path file)) as [[e | n e] |]; cbn [snd trace log];
    eexists; (split; [reflexivity |]).
  - split; [now left |]. split; [| discriminate].
    split; [intros _; now exists e | reflexivity].
  - split; [now right |]. split; [| reflexivity].
    split; [discriminate | intros [e' He']; discriminate He'].
  - split; [now right |]. split; [| reflexivity].
    split; [discriminate | intros [e' He']; discriminate He'].
Qed.

(** * The samples as real numbers *)

(** ** Rounding to nearest *)

Section Rounding.
Local Open Scope Z_scope.

Lemma shr_1_split_at (M k : Z) (mrs : shr_record) :
  0 <= k -> split_at M k mrs -> split_at M (k + 1) (shr_1 mrs).
Proof.
  intros Hk (Hm & rem & HM & Hrem & Hr & Hs). unfold split_at.
  rewrite Z.pow_add_r, Z.pow_1_r by lia.
  assert (Hp : 0 < 2 ^ k) by (apply Z.pow_pos_nonneg; lia).
  destruct mrs as [m r s]; cbn [shr_m shr_r shr_s] in *.
  destruct m as [| [p | p |] | p]; cbn [shr_1 shr_m shr_r shr_s]; try lia.
  - split; [lia |]. exists rem. split; [lia |]. split; [lia |].
    split; [split; [discriminate | lia] |].
    intros Hrs. apply orb_false_iff in Hrs as [-> ->]. specialize (Hs eq_refl). lia.
  - split; [lia |]. exists (2 ^ k + rem). rewrite Pos2Z.inj_xI in HM.
    split; [lia |]. split; [lia |]. split; [split; [lia | reflexivity] |].
    intros Hrs. apply orb_false_iff in Hrs as [-> ->]. specialize (Hs eq_refl). lia.
  - split; [lia |]. exists rem. rewrite Pos2Z.inj_xO in HM.
    split; [lia |]. split; [lia |]. split; [split; [discriminate | lia] |].
    intros Hrs. apply orb_false_iff in Hrs as [-> ->]. specialize (Hs eq_refl). lia.
  - split; [lia |]. exists (2 ^ k + rem).
    split; [lia |]. split; [lia |]. split; [split; [lia | reflexivity] |].
    intros Hrs. apply orb_false_iff in Hrs as [-> ->]. specialize (Hs eq_refl). lia.
Qed.

Lemma split_at_0 (m : Z) : 0 <= m -> split_at m 0 (Build_shr_record m false false).
Proof.
  intros Hm. unfold split_at; cbn [shr_m shr_r shr_s]. split; [lia |].
  exists 0. rewrite Z.pow_0_r. repeat split; intros; try discriminate; lia.
Qed.

Lemma shr_split_at (m e n : Z) :
  0 <= m ->
  let '(mrs, e') := shr (Build_shr_record m false false) e n in
  e' = e + Z.max n 0 /\ split_at m (e' - e) mrs.
Proof.
  intros Hm. destruct n as [| p | p]; cbn [shr].
  - split; [lia |]. replace (e - e) with 0 by lia. now apply split_at_0.
  - split; [lia |]. replace (e + Zpos p - e) with (0 + Zpos p) by lia.
    apply iter_pos_invariant with (P := split_at m).
    + intros. now apply shr_1_split_at.
    + lia.
    + now apply split_at_0.
  - split; [lia |]. replace (e - e) with 0 by lia. now apply split_at_0.
Qed.

(** Rounding to nearest after [k] shifts is off by at most half of [2^k]. *)
Lemma round_nearest_even_split (M k : Z) (mrs : shr_record) :
  split_at M k mrs ->
  let mr := round_nearest_even (shr_m mrs) (loc_of_shr_record mrs) in
  shr_m mrs <= mr <= shr_m mrs + 1 /\ 2 * Z.abs (mr * 2 ^ k - M) <= 2 ^ k /\
  (k = 0 -> mr = M).
Proof.
  intros (Hm & rem & HM & Hrem & Hr & Hs).
  destruct mrs as [m r s]; cbn [shr_m shr_r shr_s] in *.
  destruct r, s; cbn [loc_of_shr_record round_nearest_even];
    try destruct (Z.even m);
    (split; [lia |]); (split; [| intros ->; rewrite Z.pow_0_r in *; lia]);
    try specialize (Hs eq_refl);
    try (assert (2 ^ k <= 2 * rem) by (now apply Hr));
    try (assert (~ 2 ^ k <= 2 * rem) by (intros Hc; apply Hr in Hc; discriminate Hc));
    lia.
Qed.

End Rounding.

Section ShiftTwice.
Local Open Scope Z_scope.

Lemma Zdigits2_lt (M k : Z) : 0 <= M -> 0 <= k -> M < 2 ^ k -> Zdigits2 M <= k.
Proof.
  intros HM Hk Hlt. destruct M as [| p | p]; cbn [Zdigits2]; try lia.
  pose proof (digits2_pos_bounds p) as [Hlo _].
  assert (Hpow : 2 ^ (Zpos (digits2_pos p) - 1) < 2 ^ k) by lia.
  apply Z.pow_lt_mono_r_iff in Hpow; lia.
Qed.

Lemma Zdigits2_upper (M : Z) : 0 <= M -> 0 <= Zdigits2 M /\ M < 2 ^ Zdigits2 M.
Proof.
  intros HM. destruct M as [| p | p]; cbn [Zdigits2]; try lia.
  pose proof (digits2_pos_bounds p). lia.
Qed.

(** The rounding of [M * 2^E]: a mantissa [m2] and an exponent [e2], at
    most half a unit of the target exponent [e1] away. *)
Lemma binary_round_aux_near (s : bool) (M E : Z) :
  0 <= M ->
  let e1 := Z.max (fexp prec emax (Zdigits2 M + E)) E in
  exists m2 e2 : Z,
    0 <= m2 /\ e1 <= e2 <= e1 + 1 /\
    binary_round_aux prec emax s M E loc_Exact =
    match m2 with
    | Z0 => S754_zero s
    | Zpos m => if e2 <=? emax - prec then S754_finite s m e2 else S754_infinity s
    | Zneg _ => S754_nan
    end /\
    2 * Z.abs (m2 * 2 ^ (e2 - E) - M) <= 2 ^ (e1 - E).
Proof.
  intros HM e1. unfold binary_round_aux, shr_fexp. cbn [shr_record_of_loc].
  destruct (Zdigits2_upper M HM) as [Hd0 HMd].
  set (d := Zdigits2 M) in *.
  pose proof (shr_split_at M E (fexp prec emax (d + E) - E) HM) as H1.
  destruct (shr (Build_shr_record M false false) E (fexp prec emax (d + E) - E))
    as [mrs1 e1'].
  destruct H1 as (He1 & Hs1).
  assert (He1' : e1' = e1) by (subst e1; lia).
  rewrite He1' in Hs1 |- *. clear He1 He1' e1'.
  pose proof (round_nearest_even_split M (e1 - E) mrs1 Hs1) as Hround.
  cbv zeta in Hround.
  set (mr := round_nearest_even (shr_m mrs1) (loc_of_shr_record mrs1)) in *.
  destruct Hround as (Hmr & Herr & _).
  destruct Hs1 as (Hm1 & rem1 & HM1 & Hrem1 & _).
  assert (HE1 : 0 <= e1 - E) by (subst e1; lia).
  assert (Hp1 : 0 < 2 ^ (e1 - E)) by (apply Z.pow_pos_nonneg; lia).
  assert (Hfe : fexp prec emax (d + E) <= e1 /\ -1074 <= e1 /\ d + E - 53 <= e1).
  { subst e1. unfold fexp, SpecFloat.emin, prec, emax. lia. }
  assert (Hmr0 : 0 <= mr) by lia.
  (* the second shift *)
  assert (Hn2 : fexp prec emax (Zdigits2 mr + e1) - e1 <= 0 \/
                (fexp prec emax (Zdigits2 mr + e1) - e1 = 1 /\ exists h, mr = 2 * h)).
  { destruct (Z_le_gt_dec (d + E - e1) 0) as [Hq | Hq].
    - (* everything was shifted out *)
      assert (Hlt : M < 2 ^ (e1 - E)).
      { eapply Z.lt_le_trans; [exact HMd |]. apply Z.pow_le_mono_r; lia. }
      assert (Hm0 : shr_m mrs1 = 0) by nia.
      assert (Hmr1 : mr < 2 ^ 1) by (change (2 ^ 1) with 2; lia).
      pose proof (Zdigits2_lt mr 1 Hmr0 ltac:(lia) Hmr1) as Hd.
      left. unfold fexp, SpecFloat.emin, prec, emax. lia.
    - set (q := d + E - e1) in *.
      assert (Hmq : shr_m mrs1 < 2 ^ q).
      { assert (H2d : 2 ^ d = 2 ^ q * 2 ^ (e1 - E)).
        { rewrite <- Z.pow_add_r by lia. f_equal. lia. }
        assert (0 < 2 ^ q) by (apply Z.pow_pos_nonneg; lia). nia. }
      destruct (Z_lt_le_dec mr (2 ^ q)) as [Hlt | Hge].
      + pose proof (Zdigits2_lt mr q Hmr0 ltac:(lia) Hlt) as Hd.
        left. unfold fexp, SpecFloat.emin, prec, emax in *. lia.
      + assert (Heq : mr = 2 ^ q) by lia.
        assert (Hlt : mr < 2 ^ (q + 1)).
        { rewrite Heq, Z.pow_add_r, Z.pow_1_r by lia.
          assert (0 < 2 ^ q) by (apply Z.pow_pos_nonneg; lia). lia. }
        pose proof (Zdigits2_lt mr (q + 1) Hmr0 ltac:(lia) Hlt) as Hd.
        destruct (Z_le_gt_dec (fexp prec emax (Zdigits2 mr + e1) - e1) 0) as [Hle | Hgt];
          [now left | right].
        split; [unfold fexp, SpecFloat.emin, prec, emax in *; lia |].
        exists (2 ^ (q - 1)). rewrite Heq.
        replace q with (1 + (q - 1)) at 1 by lia.
        rewrite Z.pow_add_r, Z.pow_1_r by lia. reflexivity. }
  pose proof (shr_split_at mr e1 (fexp prec emax (Zdigits2 mr + e1) - e1) Hmr0) as H2.
  destruct (shr (Build_shr_record mr false false) e1
                (fexp prec emax (Zdigits2 mr + e1) - e1)) as [mrs2 e2].
  destruct H2 as (He2 & Hm2 & rem2 & HM2 & Hrem2 & _).
  exists (shr_m mrs2), e2.
  split; [exact Hm2 |]. split; [lia |]. split; [reflexivity |].
  assert (Hexact : shr_m mrs2 * 2 ^ (e2 - E) = mr * 2 ^ (e1 - E)).
  { destruct Hn2 as [Hle | [Heq [h Hh]]].
    - replace e2 with e1 in * by lia. rewrite Z.sub_diag, Z.pow_0_r in *.
      f_equal. lia.
    - replace (e2 - e1) with 1 in * by lia. rewrite Z.pow_1_r in *.
      replace (e2 - E) with (1 + (e1 - E)) by lia.
      rewrite Z.pow_add_r, Z.pow_1_r by lia.
      assert (rem2 = 0) by lia. nia. }
  rewrite Hexact. exact Herr.
Qed.

End ShiftTwice.

Section RealValue.
Local Open Scope R_scope.

Lemma pow2_IZR (k : Z) : (0 <= k)%Z -> IZR (2 ^ k) = powerRZ 2 k.
Proof.
  intros Hk. rewrite <- (Z2Nat.id k Hk) at 1 2.
  now rewrite <- pow_IZR, pow_powerRZ.
Qed.

Lemma pow2_pos (k : Z) : 0 < powerRZ 2 k.
Proof. apply powerRZ_lt. lra. Qed.

Lemma pow2_add (a b : Z) : powerRZ 2 (a + b) = powerRZ 2 a * powerRZ 2 b.
Proof. apply powerRZ_add. lra. Qed.

Lemma pow2_le (a b : Z) : (a <= b)%Z -> powerRZ 2 a <= powerRZ 2 b.
Proof.
  intros Hab. replace b with (a + (b - a))%Z by lia. rewrite pow2_add.
  rewrite <- (pow2_IZR (b - a)) by lia.
  assert (H1 : 1 <= IZR (2 ^ (b - a))).
  { apply IZR_le. assert (0 < 2 ^ (b - a))%Z by (apply Z.pow_pos_nonneg; lia). lia. }
  pose proof (pow2_pos a). nra.
Qed.

Lemma pow2_lt_inv (a b : Z) : powerRZ 2 a < powerRZ 2 b -> (a < b)%Z.
Proof.
  intros Hlt. destruct (Z_lt_le_dec a b) as [H | H]; [exact H |].
  apply pow2_le in H. lra.
Qed.

Lemma IZR_cond_Zopp (s : bool) (m : Z) :
  IZR (cond_Zopp s m) = (if s then -1 else 1) * IZR m.
Proof. destruct s; cbn [cond_Zopp]; rewrite ?opp_IZR; lra. Qed.

Lemma mul_scale_ge (m X Y : Z) : (1 <= m -> 0 < X -> 0 < Y -> Y <= m * (X * Y))%Z.
Proof.
  intros Hm HX HY. rewrite Z.mul_assoc.
  apply (Z.le_trans _ (1 * Y)); [lia |].
  apply Z.mul_le_mono_nonneg_r; [lia |]. nia.
Qed.

(** The rounding of [M * 2^E], when that is at most [2^K]: a number, off
    by at most [2^(K - 53)]. *)
Lemma binary_round_aux_error (s : bool) (M E K : Z) :
  (0 <= M)%Z -> (-1022 <= K <= 970)%Z ->
  IZR M * powerRZ 2 E <= powerRZ 2 K ->
  is_number (binary_round_aux prec emax s M E loc_Exact) = true /\
  Rabs (SF2R (binary_round_aux prec emax s M E loc_Exact)
        - IZR (cond_Zopp s M) * powerRZ 2 E) <= powerRZ 2 (K - 53).
Proof.
  intros HM HK Hle.
  destruct (binary_round_aux_near s M E HM) as (m2 & e2 & Hm2 & He2 & Hr & Herr).
  cbv zeta in He2, Herr.
  set (e1 := Z.max (fexp prec emax (Zdigits2 M + E)) E) in *.
  assert (HE1 : (0 <= e1 - E)%Z) by (subst e1; lia).
  (* the exponent that the size of the number allows *)
  assert (Hsize : M = 0%Z \/ (E <= K /\ Zdigits2 M + E <= K + 1)%Z).
  { destruct (Z.eq_dec M 0%Z) as [-> | Hne]; [now left | right].
    assert (H1 : (1 <= M)%Z) by lia.
    assert (HEK : (E <= K)%Z).
    { destruct (Z_le_gt_dec E K) as [H | H]; [exact H |].
      exfalso. apply IZR_le in H1. pose proof (pow2_pos E) as HpE.
      assert (H2 : powerRZ 2 (K + 1) <= powerRZ 2 E) by (apply pow2_le; lia).
      rewrite pow2_add in H2. change (powerRZ 2 1) with (2 * 1) in H2.
      pose proof (pow2_pos K). nra. }
    split; [exact HEK |].
    assert (HMZ : (M <= 2 ^ (K - E))%Z).
    { apply le_IZR. rewrite pow2_IZR by lia.
      replace K with (K - E + E)%Z in Hle by lia. rewrite pow2_add in Hle.
      pose proof (pow2_pos E). pose proof (pow2_pos (K - E)). nra. }
    pose proof (Zdigits2_le M (K - E) HM ltac:(lia) HMZ). lia. }
  assert (Hval : SF2R (binary_round_aux prec emax s M E loc_Exact)
                 = IZR (cond_Zopp s m2) * powerRZ 2 e2 /\
                 is_number (binary_round_aux prec emax s M E loc_Exact) = true).
  { rewrite Hr. destruct m2 as [| m | m]; [| | lia].
    - split; [| reflexivity]. cbn [SF2R]. rewrite IZR_cond_Zopp. lra.
    - replace (e2 <=? emax - prec)%Z with true; [split; reflexivity |].
      symmetry. apply Z.leb_le. destruct Hsize as [-> | [HEK Hd]].
      + exfalso. rewrite Z.sub_0_r in Herr.
        assert (0 < 2 ^ (e2 - e1))%Z by (apply Z.pow_pos_nonneg; lia).
        assert (0 < 2 ^ (e1 - E))%Z by (apply Z.pow_pos_nonneg; lia).
        replace (e2 - E)%Z with ((e2 - e1) + (e1 - E))%Z in Herr by lia.
        rewrite Z.pow_add_r in Herr by lia.
        assert (2 ^ (e1 - E) <= Z.pos m * (2 ^ (e2 - e1) * 2 ^ (e1 - E)))%Z
          by (apply mul_scale_ge; lia).
        lia.
      + subst e1. unfold fexp, SpecFloat.emin, prec, emax in *. lia. }
  destruct Hval as [Hval Hnum]. split; [exact Hnum |].
  rewrite Hval, !IZR_cond_Zopp.
  replace ((if s then -1 else 1) * IZR m2 * powerRZ 2 e2
           - (if s then -1 else 1) * IZR M * powerRZ 2 E)
    with ((if s then -1 else 1) * (IZR (m2 * 2 ^ (e2 - E) - M) * powerRZ 2 E)).
  2:{ rewrite minus_IZR, mult_IZR, pow2_IZR by lia.
      replace e2 with ((e2 - E) + E)%Z at 2 by lia. rewrite pow2_add. ring. }
  rewrite Rabs_mult.
  replace (Rabs (if s then -1 else 1)) with 1
    by (destruct s; [rewrite Rabs_left | rewrite Rabs_right]; lra).
  rewrite Rmult_1_l, Rabs_mult, <- abs_IZR, (Rabs_right (powerRZ 2 E))
    by (apply Rle_ge, Rlt_le, pow2_pos).
  destruct (Z.eq_dec e1 E) as [Heq | Hne].
  - rewrite Heq, Z.sub_diag, Z.pow_0_r in Herr.
    replace (Z.abs (m2 * 2 ^ (e2 - E) - M)) with 0%Z by lia.
    rewrite Rmult_0_l. apply Rlt_le, pow2_pos.
  - assert (Hfe : e1 = fexp prec emax (Zdigits2 M + E)) by (subst e1; lia).
    apply IZR_le in Herr. rewrite mult_IZR, pow2_IZR in Herr by lia.
    destruct Hsize as [-> | [HEK Hd]].
    + rewrite Z.sub_0_r in *.
      assert (0 < 2 ^ (e2 - e1))%Z by (apply Z.pow_pos_nonneg; lia).
      assert (0 < 2 ^ (e1 - E))%Z by (apply Z.pow_pos_nonneg; lia).
      assert (Hz : m2 = 0%Z).
      { destruct (Z.eq_dec m2 0%Z) as [Hz | Hz]; [exact Hz | exfalso].
        assert (1 <= m2)%Z by lia.
        assert (HH : (2 * Z.abs (m2 * 2 ^ (e2 - E)) <= 2 ^ (e1 - E))%Z).
        { apply le_IZR. rewrite mult_IZR, pow2_IZR by lia. exact Herr. }
        replace (e2 - E)%Z with ((e2 - e1) + (e1 - E))%Z in HH by lia.
        rewrite Z.pow_add_r in HH by lia.
        assert (2 ^ (e1 - E) <= m2 * (2 ^ (e2 - e1) * 2 ^ (e1 - E)))%Z
          by (apply mul_scale_ge; lia).
        lia. }
      rewrite Hz, Z.mul_0_l. cbn [Z.abs]. rewrite Rmult_0_l. apply Rlt_le, pow2_pos.
    + assert (He1K : (e1 <= K - 52)%Z).
      { rewrite Hfe. unfold fexp, SpecFloat.emin, prec, emax. lia. }
      assert (Hb : powerRZ 2 (e1 - E) * powerRZ 2 E <= 2 * powerRZ 2 (K - 53)).
      { rewrite <- pow2_add. replace (e1 - E + E)%Z with e1 by lia.
        replace (2 * powerRZ 2 (K - 53)) with (powerRZ 2 (1 + (K - 53)))
          by (rewrite pow2_add; change (powerRZ 2 1) with (2 * 1); ring).
        apply pow2_le. lia. }
      pose proof (pow2_pos E). pose proof (pow2_pos (e1 - E)).
      assert (0 <= IZR (Z.abs (m2 * 2 ^ (e2 - E) - M))) by (apply IZR_le; lia).
      nra.
Qed.

End RealValue.

Section Products.
Local Open Scope R_scope.

Lemma is_finite_number (x : float) : is_finite x = is_number (Prim2SF x).
Proof.
  unfold is_finite, is_nan, is_infinity.
  rewrite !FloatAxioms.eqb_spec, FloatAxioms.abs_spec.
  change (Prim2SF infinity) with (S754_infinity false).
  destruct (Prim2SF x) as [s | s | | s m e]; try reflexivity.
  - destruct s; reflexivity.
  - unfold SFeqb. cbn [SFcompare SFabs is_number].
    rewrite Z.compare_refl, Pos.compare_cont_refl. destruct s; reflexivity.
Qed.

Lemma SF2R_finite (s : bool) (m : positive) (e : Z) :
  SF2R (S754_finite s m e) = (if s then -1 else 1) * IZR (Zpos m) * powerRZ 2 e.
Proof. cbn [SF2R]. now rewrite IZR_cond_Zopp. Qed.

Lemma SF2R_abs_finite (s : bool) (m : positive) (e : Z) :
  Rabs (SF2R (S754_finite s m e)) = IZR (Zpos m) * powerRZ 2 e.
Proof.
  rewrite SF2R_finite. pose proof (pow2_pos e).
  assert (0 < IZR (Zpos m)) by (apply IZR_lt; lia).
  assert (0 < IZR (Zpos m) * powerRZ 2 e) by nra.
  destruct s; [rewrite Rabs_left | rewrite Rabs_right]; nra.
Qed.

(** The product of two numbers, when it is at most [2^K]: a number, off
    by at most [2^(K - 53)]. *)
Lemma SFmul_error (x y : spec_float) (K : Z) :
  is_number x = true -> is_number y = true -> (-1022 <= K <= 970)%Z ->
  Rabs (SF2R x * SF2R y) <= powerRZ 2 K ->
  is_number (SF64mul x y) = true /\
  Rabs (SF2R (SF64mul x y) - SF2R x * SF2R y) <= powerRZ 2 (K - 53).
Proof.
  intros Hx Hy HK Hle.
  assert (Hz : 0 <= powerRZ 2 (K - 53)) by apply Rlt_le, pow2_pos.
  destruct x as [sx | sx | | sx mx ex]; try discriminate Hx;
    destruct y as [sy | sy | | sy my ey]; try discriminate Hy;
    try (split; [reflexivity |]; cbn [SF64mul SFmul SF2R];
         rewrite ?Rmult_0_l, ?Rmult_0_r, Rminus_0_r, Rabs_R0; exact Hz).
  unfold SF64mul. cbn [SFmul].
  rewrite Rabs_mult, !SF2R_abs_finite in Hle.
  assert (Hprod : SF2R (S754_finite sx mx ex) * SF2R (S754_finite sy my ey)
                  = IZR (cond_Zopp (xorb sx sy) (Zpos (mx * my))) * powerRZ 2 (ex + ey)).
  { rewrite !SF2R_finite, IZR_cond_Zopp, Pos2Z.inj_mul, mult_IZR, pow2_add.
    destruct sx, sy; cbn [xorb]; ring. }
  rewrite Hprod. apply binary_round_aux_error; [lia | exact HK |].
  rewrite Pos2Z.inj_mul, mult_IZR, pow2_add.
  replace (IZR (Zpos mx) * IZR (Zpos my) * (powerRZ 2 ex * powerRZ 2 ey))
    with (IZR (Zpos mx) * powerRZ 2 ex * (IZR (Zpos my) * powerRZ 2 ey)) by ring.
  exact Hle.
Qed.

Lemma mul_error (x y : float) (K : Z) :
  is_finite x = true -> is_finite y = true -> (-1022 <= K <= 970)%Z ->
  Rabs (B2R x * B2R y) <= powerRZ 2 K ->
  is_finite (x * y) = true /\
  Rabs (B2R (x * y) - B2R x * B2R y) <= powerRZ 2 (K - 53).
Proof.
  rewrite !is_finite_number. unfold B2R. rewrite FloatAxioms.mul_spec.
  apply SFmul_error.
Qed.

(** A non-positive number times a non-negative one is not positive. *)
Lemma mul_nonpos (x y : float) :
  is_finite x = true -> is_finite y = true ->
  B2R x <= 0 -> 0 <= B2R y -> B2R (x * y) <= 0.
Proof.
  rewrite !is_finite_number. unfold B2R. rewrite FloatAxioms.mul_spec.
  destruct (Prim2SF x) as [sx | sx | | sx mx ex]; try discriminate;
    destruct (Prim2SF y) as [sy | sy | | sy my ey]; try discriminate;
    intros _ _ Hx Hy; try (cbn [SF64mul SFmul SF2R]; lra).
  assert (Hsx : sx = true).
  { destruct sx; [reflexivity |]. rewrite SF2R_finite in Hx.
    pose proof (pow2_pos ex). assert (0 < IZR (Zpos mx)) by (apply IZR_lt; lia). nra. }
  assert (Hsy : sy = false).
  { destruct sy; [| reflexivity]. rewrite SF2R_finite in Hy.
    pose proof (pow2_pos ey). assert (0 < IZR (Zpos my)) by (apply IZR_lt; lia). nra. }
  subst. unfold SF64mul. cbn [SFmul xorb].
  pose proof (binary_round_aux_sign true (Zpos (mx * my)) (ex + ey) ltac:(lia)) as Hs.
  destruct (binary_round_aux prec emax true (Zpos (mx * my)) (ex + ey) loc_Exact)
    as [s | s | | s m e]; try contradiction; cbn [SF2R]; try lra.
  subst s. rewrite IZR_cond_Zopp.
  pose proof (pow2_pos e). assert (0 < IZR (Zpos m)) by (apply IZR_lt; lia). nra.
Qed.

(** A value that [scaled_value] gives is the number times [2^k]. *)
Lemma scaled_value_R (k : Z) (x : spec_float) (z : Z) :
  scaled_value k x = Some z ->
  is_number x = true /\ SF2R x * powerRZ 2 k = IZR z.
Proof.
  destruct x as [s | s | | s m e]; cbn [scaled_value]; try discriminate.
  - intros [= <-]. split; [reflexivity |]. cbn [SF2R]. lra.
  - destruct (Z.leb_spec 0 (e + k)) as [Hge | Hlt].
    + intros [= <-]. split; [reflexivity |].
      rewrite SF2R_finite, IZR_cond_Zopp, mult_IZR, pow2_IZR, (pow2_add e k) by lia.
      ring.
    + destruct (Z.eqb_spec (Zpos m mod 2 ^ (- (e + k))) 0) as [Hmod | Hmod];
        [| discriminate].
      intros [= <-]. split; [reflexivity |].
      rewrite SF2R_finite, IZR_cond_Zopp.
      assert (Hp : (0 < 2 ^ (- (e + k)))%Z) by (apply Z.pow_pos_nonneg; lia).
      assert (Hm : (Zpos m = 2 ^ (- (e + k)) * (Zpos m / 2 ^ (- (e + k))))%Z).
      { pose proof (Z.div_mod (Zpos m) (2 ^ (- (e + k))) ltac:(lia)). lia. }
      rewrite Hm at 1. rewrite mult_IZR, pow2_IZR by lia.
      replace ((if s then -1 else 1)
               * (powerRZ 2 (- (e + k)) * IZR (Zpos m / 2 ^ (- (e + k))))
               * powerRZ 2 e * powerRZ 2 k)
        with ((if s then -1 else 1) * IZR (Zpos m / 2 ^ (- (e + k)))
              * (powerRZ 2 (- (e + k)) * powerRZ 2 (e + k)))
        by (rewrite (pow2_add e k); ring).
      rewrite <- pow2_add. replace (- (e + k) + (e + k))%Z with 0%Z by lia.
      cbn [powerRZ]. ring.
Qed.

End Products.

Section Analysis.
Local Open Scope R_scope.

Lemma pow2_neg (k : Z) : (0 <= k)%Z -> powerRZ 2 (- k) = / IZR (2 ^ k).
Proof. intros Hk. now rewrite powerRZ_neg', pow2_IZR. Qed.

Lemma near_hundredth_R (t : Z) (x : spec_float) :
  near_hundredth t x = true ->
  is_number x = true /\ 0 <= SF2R x /\
  Rabs (SF2R x - IZR t / 100) <= powerRZ 2 (-48).
Proof.
  destruct x as [s | s | | s m e]; cbn [near_hundredth]; try discriminate.
  - intros Ht. apply Z.eqb_eq in Ht. subst t. split; [reflexivity |].
    cbn [SF2R]. split; [lra |].
    replace (0 - 0 / 100) with 0 by lra. rewrite Rabs_R0. apply Rlt_le, pow2_pos.
  - destruct s; [discriminate |]. intros H.
    apply andb_true_iff in H as [He H]. apply Z.leb_le in He, H.
    split; [reflexivity |]. rewrite SF2R_finite, Rmult_1_l.
    pose proof (pow2_pos e) as Hpe.
    assert (Hm : 0 < IZR (Zpos m)) by (apply IZR_lt; lia).
    split; [nra |].
    assert (Hp : (0 < 2 ^ (- e))%Z) by (apply Z.pow_pos_nonneg; lia).
    apply IZR_le in H. rewrite !mult_IZR, abs_IZR, minus_IZR, !mult_IZR in H.
    rewrite pow2_IZR in H by lia.
    assert (Hinv : powerRZ 2 (- e) * powerRZ 2 e = 1).
    { rewrite <- pow2_add. replace (- e + e)%Z with 0%Z by lia. reflexivity. }
    change (-48)%Z with (- (48))%Z. rewrite pow2_neg by lia.
    set (P := powerRZ 2 (- e)) in *. set (p := powerRZ 2 e) in *.
    set (B := IZR (2 ^ 48)) in *.
    assert (HB : 0 < B) by (subst B; apply IZR_lt; reflexivity).
    assert (HP : 0 < P) by (subst P; apply pow2_pos).
    replace (IZR (Zpos m) * p - IZR t / 100)
      with ((100 * IZR (Zpos m) - IZR t * P) * (p / 100)).
    2:{ replace (IZR t / 100) with (IZR t * (P * p) / 100) by (rewrite Hinv; field).
        field. }
    rewrite Rabs_mult, (Rabs_right (p / 100)) by (apply Rle_ge; nra).
    apply (Rmult_le_reg_r B); [exact HB |].
    replace (/ B * B) with 1 by (field; lra).
    assert (Hx : 0 <= Rabs (100 * IZR (Zpos m) - IZR t * P)) by apply Rabs_pos.
    replace (Rabs (100 * IZR (Z.pos m) - IZR t * P) * (p / 100) * B)
      with ((Rabs (100 * IZR (Z.pos m) - IZR t * P) * B) * (p / 100)) by ring.
    apply (Rle_trans _ (100 * P * (p / 100))).
    + apply Rmult_le_compat_r; [nra | exact H].
    + replace (100 * P * (p / 100)) with (P * p) by field. lra.
Qed.

(** [sin] and, on the non-positive numbers, [exp] move no farther than
    their arguments. *)
Lemma sin_abs_le (x : R) : Rabs (sin x) <= Rabs x.
Proof.
  assert (Hpos : forall y, 0 < y -> Rabs (sin y) <= y).
  { intros y Hy. pose proof (sin_lt_x y Hy) as Hlt.
    destruct (Rle_lt_dec 1 y) as [H1 | H1].
    - pose proof (SIN_bound y). apply Rabs_le. lra.
    - pose proof (sin_pos_tech y ltac:(lra)). rewrite Rabs_right; lra. }
  destruct (Rtotal_order x 0) as [Hlt | [-> | Hgt]].
  - rewrite <- (Ropp_involutive x) at 1. rewrite sin_neg, Rabs_Ropp.
    rewrite (Rabs_left x Hlt). apply Hpos. lra.
  - rewrite sin_0, Rabs_R0. lra.
  - rewrite (Rabs_right x) by lra. now apply Hpos.
Qed.

Lemma sin_lipschitz (a b : R) : Rabs (sin a - sin b) <= Rabs (a - b).
Proof.
  rewrite form4, !Rabs_mult.
  pose proof (COS_bound ((a + b) / 2)) as Hc.
  assert (Hc' : Rabs (cos ((a + b) / 2)) <= 1) by (apply Rabs_le; lra).
  pose proof (sin_abs_le ((a - b) / 2)) as Hs.
  replace (Rabs ((a - b) / 2)) with (Rabs (a - b) / 2) in Hs.
  2:{ unfold Rdiv. rewrite Rabs_mult, (Rabs_right (/ 2)); lra. }
  rewrite (Rabs_right 2) by lra.
  pose proof (Rabs_pos (cos ((a + b) / 2))). pose proof (Rabs_pos (sin ((a - b) / 2))).
  pose proof (Rabs_pos (a - b)). nra.
Qed.

Lemma exp_le_1 (x : R) : x <= 0 -> exp x <= 1.
Proof.
  intros [Hlt | ->]; [| rewrite exp_0; lra].
  apply exp_increasing in Hlt. rewrite exp_0 in Hlt. lra.
Qed.

Lemma exp_lipschitz (a b : R) : a <= 0 -> b <= 0 -> Rabs (exp a - exp b) <= Rabs (a - b).
Proof.
  assert (H : forall u v, u <= v -> v <= 0 -> 0 <= exp v - exp u <= v - u).
  { intros u v Huv Hv.
    replace (exp u) with (exp v * exp (u - v))
      by (rewrite <- exp_plus; f_equal; ring).
    pose proof (exp_ineq1_le (u - v)). pose proof (exp_le_1 v Hv).
    pose proof (exp_le_1 (u - v) ltac:(lra)).
    pose proof (exp_pos v). pose proof (exp_pos (u - v)). nra. }
  intros Ha Hb. destruct (Rle_lt_dec a b) as [Hab | Hab].
  - pose proof (H a b Hab Hb). rewrite Rabs_left1, Rabs_left1; lra.
  - pose proof (H b a ltac:(lra) Ha). rewrite Rabs_right, Rabs_right; lra.
Qed.

Lemma product_close (E G S s a b : R) :
  Rabs (E - G) <= a -> Rabs (S - s) <= b -> Rabs G <= 1 -> Rabs s <= 1 ->
  Rabs S <= 1 + b /\ Rabs (E * S - G * s) <= a * (1 + b) + b.
Proof.
  intros Ha Hb HG Hs.
  assert (HS : Rabs S <= 1 + b).
  { replace S with (s + (S - s)) by ring.
    eapply Rle_trans; [apply Rabs_triang |]. lra. }
  split; [exact HS |].
  replace (E * S - G * s) with ((E - G) * S + G * (S - s)) by ring.
  eapply Rle_trans; [apply Rabs_triang |]. rewrite !Rabs_mult.
  pose proof (Rabs_pos (E - G)). pose proof (Rabs_pos S).
  pose proof (Rabs_pos G). pose proof (Rabs_pos (S - s)). nra.
Qed.

End Analysis.

Section Sample.
Context {libm : Libm}.
Local Open Scope R_scope.

Lemma angle_close_all : forallb angle_close (Py.range 4092) = true.
Proof. vm_compute. reflexivity. Qed.

Lemma B2R_neg_half : B2R (-0.5)%float = -0.5.
Proof.
  unfold B2R. change (Prim2SF (-0.5)) with (S754_finite true 4503599627370496 (-53)).
  rewrite SF2R_finite. change (-53)%Z with (- (53))%Z. rewrite pow2_neg by lia.
  change (2 ^ 53)%Z with 9007199254740992%Z. lra.
Qed.

(** The arguments that the script gives the C library at index [t], as
    real numbers. *)
Lemma script_arguments_R (t : nat) :
  (t < 4092)%nat ->
  B2R (Py.float_of_int (Z.of_nat t)) = INR t /\
  is_finite (envelope_arg (Z.of_nat t)) = true /\
  B2R (envelope_arg (Z.of_nat t)) = (2048 - INR t) / 512 /\
  is_finite (carrier_arg (Z.of_nat t)) = true /\
  0 <= B2R (carrier_arg (Z.of_nat t)) /\
  Rabs (B2R (carrier_arg (Z.of_nat t)) - INR t / 100) <= powerRZ 2 (-48).
Proof.
  intros Ht. rewrite INR_IZR_INZ.
  assert (Hin : In (Z.of_nat t) (Py.range 4092)).
  { unfold Py.range. apply List.in_map, List.in_seq. lia. }
  pose proof (proj1 (List.forallb_forall _ _) args_exact_all _ Hin) as Hex.
  pose proof (proj1 (List.forallb_forall _ _) angle_close_all _ Hin) as Han.
  unfold args_exact in Hex.
  destruct (scaled_value 0 (Prim2SF (Py.float_of_int (Z.of_nat t)))) as [z |] eqn:Hz;
    [| discriminate Hex].
  destruct (scaled_value 9 (Prim2SF (envelope_arg (Z.of_nat t)))) as [b |] eqn:Hb;
    [| discriminate Hex].
  apply andb_true_iff in Hex as [Hex _]. apply andb_true_iff in Hex as [Hex _].
  apply andb_true_iff in Hex as [Hzt Hbt]. apply Z.eqb_eq in Hzt, Hbt. subst z b.
  apply scaled_value_R in Hz as [_ Hz]. apply scaled_value_R in Hb as [Hbn Hb].
  apply near_hundredth_R in Han as (Hcn & Hc0 & Hc).
  cbn [powerRZ] in Hz. rewrite Rmult_1_r in Hz.
  split; [exact Hz |]. split; [now rewrite is_finite_number |].
  split.
  - unfold B2R. rewrite minus_IZR in Hb.
    change (powerRZ 2 9) with (2 ^ 9) in Hb. lra.
  - split; [now rewrite is_finite_number |]. split; [exact Hc0 | exact Hc].
Qed.

Lemma tolerance_sum (eps u : R) :
  0 <= eps <= 1 -> 0 < u <= / 1024 ->
  (eps + (2 * u + eps / 2)) * (1 + (eps + 4 * u)) + (eps + 4 * u) + u
  <= 4 * eps + 16 * u.
Proof. intros He Hu. assert (/ 1024 <= 0.001) by lra. nra. Qed.

End Sample.

Section Tolerance.
Local Open Scope R_scope.

Lemma pow2_units :
  let u := powerRZ 2 (-50) in
  0 < u <= / 1024 /\ powerRZ 2 (-49) = 2 * u /\ powerRZ 2 (-48) = 4 * u /\
  powerRZ 2 (-46) = 16 * u.
Proof.
  intros u. subst u.
  change (-49)%Z with (1 + -50)%Z. change (-48)%Z with (2 + -50)%Z.
  change (-46)%Z with (4 + -50)%Z. rewrite !pow2_add.
  change (powerRZ 2 1) with (2 ^ 1). change (powerRZ 2 2) with (2 ^ 2).
  change (powerRZ 2 4) with (2 ^ 4).
  split; [| repeat split; ring].
  split; [apply pow2_pos |].
  apply (Rle_trans _ (powerRZ 2 (-10))); [apply pow2_le; lia |].
  change (powerRZ 2 (-10)) with (/ 2 ^ 10). apply Req_le. f_equal. ring.
Qed.

Lemma Rabs_le_add (x y z d1 d2 : R) :
  Rabs (x - y) <= d1 -> Rabs (y - z) <= d2 -> Rabs (x - z) <= d1 + d2.
Proof.
  intros H1 H2. replace (x - z) with ((x - y) + (y - z)) by ring.
  eapply Rle_trans; [apply Rabs_triang |]. lra.
Qed.

Lemma Rabs_bounds (x d : R) : Rabs x <= d -> - d <= x <= d.
Proof. unfold Rabs. destruct (Rcase_abs x); lra. Qed.

End Tolerance.


Section ExactLibm.
Local Open Scope R_scope.

Lemma binary_round_error (s : bool) (m : positive) (e K : Z) :
  (-1022 <= K <= 970)%Z ->
  IZR (Zpos m) * powerRZ 2 e <= powerRZ 2 K ->
  is_number (binary_round prec emax s m e) = true /\
  Rabs (SF2R (binary_round prec emax s m e) - IZR (cond_Zopp s (Zpos m)) * powerRZ 2 e)
  <= powerRZ 2 (K - 53).
Proof.
  intros HK Hle. unfold binary_round, shl_align.
  destruct (fexp prec emax (Zpos (digits2_pos m) + e) - e)%Z as [| d | d] eqn:Hd;
    try (apply binary_round_aux_error; [lia | exact HK | exact Hle]).
  fold (shift_pos d m).
  set (e' := fexp prec emax (Zpos (digits2_pos m) + e)) in *.
  assert (Hsame : forall s', IZR (cond_Zopp s' (Zpos (shift_pos d m))) * powerRZ 2 e'
                             = IZR (cond_Zopp s' (Zpos m)) * powerRZ 2 e).
  { intros s'. rewrite !IZR_cond_Zopp, shift_pos_correct, mult_IZR, Zpower_pos_powerRZ.
    replace (powerRZ 2 e) with (powerRZ 2 (Zpos d + e')) by (f_equal; lia).
    rewrite pow2_add. ring. }
  rewrite <- (Hsame s). apply binary_round_aux_error; [lia | exact HK |].
  pose proof (Hsame false) as Hf. cbn [cond_Zopp] in Hf. rewrite Hf. exact Hle.
Qed.

Lemma of_uint63_error (n : Z) :
  (0 <= n <= 2 ^ 62)%Z ->
  is_finite (of_uint63 (Uint63.of_Z n)) = true /\
  Rabs (B2R (of_uint63 (Uint63.of_Z n)) - IZR n) <= powerRZ 2 9.
Proof.
  intros Hn. rewrite is_finite_number. unfold B2R.
  rewrite FloatAxioms.of_uint63_spec, Uint63.of_Z_spec.
  rewrite Z.mod_small by (change wB with (2 ^ 63)%Z; lia).
  destruct n as [| m | m]; [| | lia]; cbn [binary_normalize].
  - split; [reflexivity |]. cbn [SF2R]. rewrite Rminus_0_r, Rabs_R0.
    apply Rlt_le, pow2_pos.
  - replace (IZR (Zpos m)) with (IZR (cond_Zopp false (Zpos m)) * powerRZ 2 0)
      by (rewrite powerRZ_O; cbn [cond_Zopp]; ring).
    change 9%Z with (62 - 53)%Z. apply binary_round_error; [lia |].
    rewrite powerRZ_O, Rmult_1_r, <- (pow2_IZR 62) by lia. apply IZR_le. lia.
Qed.

Lemma B2R_opp (x : float) : B2R (- x) = - B2R x.
Proof.
  unfold B2R. rewrite FloatAxioms.opp_spec.
  destruct (Prim2SF x) as [s | s | | s m e]; cbn [SFopp SF2R]; try lra.
  rewrite !IZR_cond_Zopp. destruct s; cbn [negb]; ring.
Qed.

Lemma is_finite_opp (x : float) : is_finite (- x) = is_finite x.
Proof.
  rewrite !is_finite_number, FloatAxioms.opp_spec.
  destruct (Prim2SF x); reflexivity.
Qed.

(** The conversion of an integer of at most 62 bits. *)
Lemma float_of_int_error (n : Z) :
  (Z.abs n <= 2 ^ 62)%Z ->
  is_finite (Py.float_of_int n) = true /\
  Rabs (B2R (Py.float_of_int n) - IZR n) <= powerRZ 2 9.
Proof.
  intros Hn. unfold Py.float_of_int. destruct (Z.ltb_spec n 0) as [Hneg | Hpos].
  - destruct (of_uint63_error (- n) ltac:(lia)) as [Hfin Herr].
    rewrite is_finite_opp, B2R_opp. split; [exact Hfin |].
    rewrite opp_IZR in Herr.
    replace (- B2R (of_uint63 (of_Z (- n))) - IZR n)
      with (- (B2R (of_uint63 (of_Z (- n))) - - IZR n)) by ring.
    now rewrite Rabs_Ropp.
  - apply of_uint63_error. lia.
Qed.

Lemma B2R_scale : B2R 0x1p-62%float = powerRZ 2 (-62).
Proof.
  unfold B2R. change (Prim2SF 0x1p-62) with (S754_finite false 4503599627370496 (-114)).
  rewrite SF2R_finite, Rmult_1_l.
  change 4503599627370496%Z with (2 ^ 52)%Z. rewrite pow2_IZR by lia.
  rewrite <- pow2_add. reflexivity.
Qed.

Lemma round_R_error (r : R) :
  Rabs r <= 1 ->
  is_finite (round_R r) = true /\ Rabs (B2R (round_R r) - r) <= powerRZ 2 (-51).
Proof.
  intros Hr. unfold round_R.
  set (n := Int_part (r * powerRZ 2 62)).
  set (B := powerRZ 2 62) in *.
  assert (HB : B = IZR (2 ^ 62)) by (subst B; now rewrite pow2_IZR by lia).
  assert (HBpos : 0 < B) by (subst B; apply pow2_pos).
  destruct (base_Int_part (r * B)) as [Hlo Hhi]. fold n in Hlo, Hhi.
  apply Rabs_bounds in Hr.
  assert (Hn : (Z.abs n <= 2 ^ 62)%Z).
  { assert (H1 : IZR n <= IZR (2 ^ 62)) by (rewrite <- HB; nra).
    assert (H2 : IZR (- 2 ^ 62 - 1) < IZR n).
    { rewrite minus_IZR, opp_IZR, <- HB. nra. }
    apply le_IZR in H1. apply lt_IZR in H2. lia. }
  destruct (float_of_int_error n Hn) as [Hfin Herr].
  set (F := Py.float_of_int n) in *.
  assert (Hinv : B * powerRZ 2 (-62) = 1).
  { subst B. rewrite <- pow2_add. reflexivity. }
  set (c := powerRZ 2 (-62)) in *.
  assert (Hc : 0 < c) by (subst c; apply pow2_pos).
  assert (H9 : powerRZ 2 9 * c = powerRZ 2 (-53)).
  { subst c. rewrite <- pow2_add. reflexivity. }
  assert (H53 : powerRZ 2 (-53) <= / 2).
  { apply (Rle_trans _ (powerRZ 2 (-1))); [apply pow2_le; lia |].
    change (powerRZ 2 (-1)) with (/ 2 ^ 1). apply Req_le. f_equal. ring. }
  apply Rabs_bounds in Herr.
  assert (Hprod : is_finite (F * 0x1p-62)%float = true /\
                  Rabs (B2R (F * 0x1p-62)%float - B2R F * B2R 0x1p-62%float)
                  <= powerRZ 2 (1 - 53)).
  { apply mul_error; [exact Hfin | reflexivity | lia |].
    rewrite B2R_scale. fold c. change (powerRZ 2 1) with (2 ^ 1).
    apply Rabs_le. nra. }
  destruct Hprod as [Hpfin Hp]. rewrite B2R_scale in Hp. fold c in Hp.
  change (1 - 53)%Z with (-52)%Z in Hp.
  split; [exact Hpfin |].
  assert (H51 : powerRZ 2 (-51) = powerRZ 2 (-52) + powerRZ 2 (-52)).
  { change (-51)%Z with (1 + -52)%Z. rewrite pow2_add.
    change (powerRZ 2 1) with (2 ^ 1). ring. }
  assert (H52 : powerRZ 2 (-52) = powerRZ 2 (-53) + powerRZ 2 (-53)).
  { change (-52)%Z with (1 + -53)%Z. rewrite pow2_add.
    change (powerRZ 2 1) with (2 ^ 1). ring. }
  assert (Hc53 : c <= powerRZ 2 (-53)) by (subst c; apply pow2_le; lia).
  rewrite H51. apply (Rabs_le_add _ (B2R F * c)); [exact Hp |].
  apply Rabs_le. replace r with (r * B * c) at 1 3 by (rewrite Rmult_assoc, Hinv; ring).
  nra.
Qed.

Lemma mul_self_nonneg_R (x : float) : is_finite x = true -> 0 <= B2R (x * x).
Proof.
  rewrite is_finite_number. unfold B2R. rewrite FloatAxioms.mul_spec.
  destruct (Prim2SF x) as [s | s | | s m e]; try discriminate; intros _;
    try (cbn [SF64mul SFmul SF2R]; lra).
  unfold SF64mul. cbn [SFmul]. rewrite xorb_nilpotent.
  pose proof (binary_round_aux_sign false (Zpos (m * m)) (e + e) ltac:(lia)) as Hs.
  destruct (binary_round_aux prec emax false (Zpos (m * m)) (e + e) loc_Exact)
    as [s' | s' | | s' m' e']; try contradiction; cbn [SF2R]; try lra.
  subst s'. rewrite IZR_cond_Zopp.
  pose proof (pow2_pos e'). assert (0 < IZR (Zpos m')) by (apply IZR_lt; lia). nra.
Qed.

Lemma exact_libm_accurate : accurate exact_libm (powerRZ 2 (-49)).
Proof.
  assert (H51 : powerRZ 2 (-51) <= powerRZ 2 (-49)) by (apply pow2_le; lia).
  split; [| split].
  - intros x Hfin Hx. cbn [float_pow exact_libm]. unfold crude_pow.
    change (2 =? 2)%float with true. cbv iota.
    assert (Hsq : Rabs (B2R x * B2R x) <= powerRZ 2 4).
    { rewrite Rabs_mult. change (powerRZ 2 4) with (2 ^ 4).
      pose proof (Rabs_pos (B2R x)). nra. }
    destruct (mul_error x x 4 Hfin Hfin ltac:(lia) Hsq) as [Hpfin Hp].
    split; [exact Hpfin |]. split; [now apply mul_self_nonneg_R |].
    replace (B2R x ^ 2) with (B2R x * B2R x) by ring. exact Hp.
  - intros x Hfin Hx. cbn [math_exp exact_libm].
    destruct (round_R_error (exp (B2R x))) as [Hrfin Hr].
    { pose proof (exp_pos (B2R x)). pose proof (exp_le_1 (B2R x) ltac:(lra)).
      apply Rabs_le. lra. }
    split; [exact Hrfin | lra].
  - intros x Hfin Hx. cbn [math_sin exact_libm].
    destruct (round_R_error (sin (B2R x))) as [Hrfin Hr].
    { apply Rabs_le, SIN_bound. }
    split; [exact Hrfin | lra].
Qed.

End ExactLibm.


(** C1. For every index [t] in [0, 4092), the sample at position [t] is
    the Gaussian envelope centred at 2048 with scale 512 times the sinusoid
    of step 1/100 radian: it is the binary64 expression of the script, the
    index enters it as the number [t], and its value is within
    [4 * eps + 2^-46] of the real number
    [exp(-0.5 * ((2048 - t)/512)^2) * sin(t/100)], for a C library that
    computes [x ** 2.0], [exp] and [sin] within [eps]. *)
Theorem signal_sample_formula (libm : Libm) (eps : R) (t : nat) :
  (0 <= eps <= 1)%R -> accurate libm eps -> (t < 4092)%nat ->
  exists y : float,
    nth_error signal t = Some y /\
    y = (math_exp (-0.5 * float_pow ((2048.0 - Py.float_of_int (Z.of_nat t)) / 512.0) 2.0)
         * math_sin (Py.float_of_int (Z.of_nat t) / 100.0))%float /\
    is_finite y = true /\
    B2R (Py.float_of_int (Z.of_nat t)) = INR t /\
    (Rabs (B2R y - exp (-0.5 * ((2048 - INR t) / 512) ^ 2) * sin (INR t / 100))
     <= 4 * eps + powerRZ 2 (-46))%R.
Proof.
  intros Heps (Hpow & Hexp & Hsin) Ht.
  destruct (script_arguments_R t Ht) as (Hti & Hafin & Ha & Hcfin & Hc0 & Hc).
  destruct pow2_units as (Hu & H49 & H48 & H46).
  set (u := powerRZ 2 (-50)) in *.
  eexists. split; [apply (signal_nth_error t Ht) |]. split; [reflexivity |].
  unfold envelope, carrier.
  change ((2048.0 - Py.float_of_int (Z.of_nat t)) / 512.0)%float
    with (envelope_arg (Z.of_nat t)) in *.
  change (Py.float_of_int (Z.of_nat t) / 100.0)%float with (carrier_arg (Z.of_nat t)) in *.
  set (a := envelope_arg (Z.of_nat t)) in *.
  set (c := carrier_arg (Z.of_nat t)) in *.
  assert (HT : (0 <= INR t <= 4091)%R).
  { rewrite INR_IZR_INZ. split; apply IZR_le; lia. }
  set (T := INR t) in *.
  set (A := ((2048 - T) / 512)%R) in *.
  assert (HA : (-4 <= A <= 4)%R) by (subst A; lra).
  assert (HAabs : (Rabs (B2R a) <= 4)%R) by (rewrite Ha; apply Rabs_le; lra).
  destruct (Hpow a Hafin HAabs) as (Hpfin & Hp0 & Hp). rewrite Ha in Hp.
  set (p := float_pow a 2) in *.
  assert (HA2 : (0 <= A ^ 2 <= 16)%R) by nra.
  assert (HP : (B2R p <= 17)%R).
  { apply Rabs_bounds in Hp. lra. }
  (* the product by -0.5 *)
  assert (Hq : is_finite (-0.5 * p)%float = true /\
               (Rabs (B2R (-0.5 * p)%float - B2R (-0.5)%float * B2R p)
                <= powerRZ 2 (4 - 53))%R).
  { apply mul_error; [reflexivity | exact Hpfin | lia |].
    rewrite B2R_neg_half. change (powerRZ 2 4) with (2 ^ 4)%R.
    apply Rabs_le. lra. }
  destruct Hq as (Hqfin & Hq). change (4 - 53)%Z with (-49)%Z in Hq.
  rewrite H49, B2R_neg_half in Hq.
  assert (Hq0 : (B2R (-0.5 * p)%float <= 0)%R).
  { apply mul_nonpos; [reflexivity | exact Hpfin | | exact Hp0].
    rewrite B2R_neg_half. lra. }
  set (q := (-0.5 * p)%float) in *.
  assert (Hqr : (Rabs (B2R q - -0.5 * A ^ 2) <= 2 * u + eps / 2)%R).
  { apply (Rabs_le_add _ (-0.5 * B2R p)); [exact Hq |].
    replace (-0.5 * B2R p - -0.5 * A ^ 2)%R with (-0.5 * (B2R p - A ^ 2))%R by ring.
    rewrite Rabs_mult, (Rabs_left (-0.5)) by lra.
    pose proof (Rabs_pos (B2R p - A ^ 2)). lra. }
  assert (Hq9 : (-9 <= B2R q <= 0)%R).
  { split; [| exact Hq0]. apply Rabs_bounds in Hq. lra. }
  destruct (Hexp q Hqfin Hq9) as (Hefin & He).
  set (E := math_exp q) in *.
  set (G := exp (-0.5 * A ^ 2)).
  assert (HG : (0 < G <= 1)%R).
  { split; [apply exp_pos | apply exp_le_1; lra]. }
  assert (HEG : (Rabs (B2R E - G) <= eps + (2 * u + eps / 2))%R).
  { apply (Rabs_le_add _ (exp (B2R q))); [exact He |].
    eapply Rle_trans; [apply exp_lipschitz; lra | exact Hqr]. }
  (* the sine *)
  rewrite H48 in Hc.
  assert (Hc41 : (0 <= B2R c <= 41)%R).
  { split; [exact Hc0 |]. apply Rabs_bounds in Hc. lra. }
  destruct (Hsin c Hcfin Hc41) as (Hsfin & Hs).
  set (Sn := math_sin c) in *.
  assert (HSs : (Rabs (B2R Sn - sin (T / 100)) <= eps + 4 * u)%R).
  { apply (Rabs_le_add _ (sin (B2R c))); [exact Hs |].
    eapply Rle_trans; [apply sin_lipschitz | exact Hc]. }
  assert (HGabs : (Rabs G <= 1)%R) by (apply Rabs_le; lra).
  assert (Hsabs : (Rabs (sin (T / 100)) <= 1)%R).
  { apply Rabs_le. apply SIN_bound. }
  destruct (product_close (B2R E) G (B2R Sn) (sin (T / 100)) _ _ HEG HSs HGabs Hsabs)
    as (HSabs & Hprod).
  (* the product of the two *)
  assert (HEabs : (Rabs (B2R E) <= 1 + (eps + (2 * u + eps / 2)))%R).
  { replace (B2R E) with (G + (B2R E - G))%R by ring.
    eapply Rle_trans; [apply Rabs_triang |]. lra. }
  assert (Hy : is_finite (E * Sn)%float = true /\
               (Rabs (B2R (E * Sn)%float - B2R E * B2R Sn) <= powerRZ 2 (3 - 53))%R).
  { apply mul_error; [exact Hefin | exact Hsfin | lia |].
    rewrite Rabs_mult. change (powerRZ 2 3) with (2 ^ 3)%R.
    pose proof (Rabs_pos (B2R E)). pose proof (Rabs_pos (B2R Sn)). nra. }
  destruct Hy as (Hyfin & Hy). change (3 - 53)%Z with (-50)%Z in Hy. fold u in Hy.
  split; [exact Hyfin |]. split; [exact Hti |].
  rewrite H46.
  eapply Rle_trans; [| apply (tolerance_sum eps u Heps Hu)].
  replace ((eps + (2 * u + eps / 2)) * (1 + (eps + 4 * u)) + (eps + 4 * u) + u)%R
    with (u + ((eps + (2 * u + eps / 2)) * (1 + (eps + 4 * u)) + (eps + 4 * u)))%R by ring.
  apply (Rabs_le_add _ (B2R E * B2R Sn)); [exact Hy | exact Hprod].
Qed.

Lemma signal_sample_formula_witness :
  exists y : float,
    nth_error (@signal exact_libm) 1000 = Some y /\
    y = (round_R (exp (B2R (-0.5 * crude_pow ((2048.0 - Py.float_of_int (Z.of_nat 1000)) / 512.0) 2.0)))
         * round_R (sin (B2R (Py.float_of_int (Z.of_nat 1000) / 100.0))))%float /\
    is_finite y = true /\
    B2R (Py.float_of_int (Z.of_nat 1000)) = INR 1000 /\
    (Rabs (B2R y - exp (-0.5 * ((2048 - INR 1000) / 512) ^ 2) * sin (INR 1000 / 100))
     <= 4 * powerRZ 2 (-49) + powerRZ 2 (-46))%R.
Proof.
  apply (signal_sample_formula exact_libm (powerRZ 2 (-49)) 1000).
  - split; [apply Rlt_le, pow2_pos |].
    change (powerRZ 2 (-49)) with (/ 2 ^ 49)%R.
    rewrite <- Rinv_1. apply Rinv_le_contravar; [lra |]. apply pow_R1_Rle. lra.
  - exact exact_libm_accurate.
  - lia.
Defined.

(** * Reading the written file back *)

Section ReadBack.
Context {libm : Libm}.




End ReadBack.


